(** * Market basket analysis dashboard: rule mining pipeline and rule graph

    A shallow embedding of [dashboard3.py] / [dashboardd.py].

    - The dashboard's own code (the one-hot encoding [basket_sets], the
      lift filter, the default graph threshold, [draw_network] and the
      CSV export of [display_rules]) is translated from the source.
    - Metric values (support, confidence, lift) are ratios of counts; they
      are represented as exact rationals [Q].
    - Python dictionaries keep insertion order, so the [networkx] graph is
      an insertion-ordered dictionary of insertion-ordered dictionaries.
    - An exception ends the run; a computation that may raise returns a
      [result].  The exceptions are those of the libraries: the mining
      library ([apriori], [association_rules], module [Mlxtend]), which is
      not part of the dashboard and is modelled from the specification,
      and the slider of the graph stage. *)

From Stdlib Require Import QArith Ascii.
From Stdlib Require DecimalString DecimalZ DecimalPos.
From stdpp Require Import base decidable option list sorting gmap strings pretty.

#[local] Set Warnings "-clear-no-such-hyp".

Local Open Scope Z_scope.

(** ** Insertion-ordered dictionaries (Python [dict]) *)

Module ODict.
Section odict.
Context {K V : Type} `{EqDecision K}.

Definition t := list (K * V).

Definition keys (d : t) : list K := d.*1.

Fixpoint get (k : K) (d : t) : option V :=
  match d with
  | [] => None
  | (k', v) :: d' => if decide (k' = k) then Some v else get k d'
  end.

(** [d[k] = v]: an existing key keeps its position, a new one goes last. *)
Fixpoint set (k : K) (v : V) (d : t) : t :=
  match d with
  | [] => [(k, v)]
  | (k', v') :: d' =>
      if decide (k' = k) then (k, v) :: d' else (k', v') :: set k v d'
  end.

Definition mem (k : K) (d : t) : bool := bool_decide (k ∈ keys d).
End odict.
Global Arguments t : clear implicits.
End ODict.

(** ** Errors and results *)

(** Modelled from the spec: the error taxonomy of section 7, for the errors
    of the mining library.  The dashboard defines no error of its own; the
    last constructor is the exception of the widget library, which a
    slider raises when its two ends do not leave a range. *)
Inductive Error :=
  | EmptyDatasetError
  | ConfigurationError
  | MalformedInputError
  | InvariantViolationError
  | StreamlitAPIException.

(** A computation that returns a value or raises an error. *)
Inductive result (A : Type) :=
  | Ok (a : A)
  | Err (e : Error).
Global Arguments Ok {_} _.
Global Arguments Err {_} _.

#[global] Instance result_ret : MRet result := λ A a, Ok a.
#[global] Instance result_bind : MBind result := λ A B f m,
  match m with Ok a => f a | Err e => Err e end.
#[global] Instance result_fmap : FMap result := λ A B f m,
  match m with Ok a => Ok (f a) | Err e => Err e end.


(** ** Rule table ([rules], the DataFrame returned by [association_rules]) *)

Definition Item := string.

(** One row of the frame.  The dashboard reads the columns [antecedents],
    [consequents], [support], [confidence] and [lift]; the frame of the
    library has more, which the dashboard copies and exports untouched:
    the supports of the two sides, placed before [support], and, after
    [lift], [further] metrics whose number and names are the library's. *)
Record Rule := {
  antecedents : gset Item;
  consequents : gset Item;
  antecedent_support : Q;
  consequent_support : Q;
  support : Q;
  confidence : Q;
  lift : Q;
  further : list Q;
}.

(** [metric_choice]: one of the three column names offered by the selectbox. *)
Inductive Metric := Confidence | Lift | Support.

(** [row[selected_metric]] *)
Definition column (selected_metric : Metric) (row : Rule) : Q :=
  match selected_metric with
  | Confidence => confidence row
  | Lift => lift row
  | Support => support row
  end.

(** [rules[rules[col] >= v]] *)
Definition rows_ge (col : Rule → Q) (v : Q) (rules : list Rule) : list Rule :=
  filter (λ row, Qle_bool v (col row) = true) rules.

(** ** [f"{x:.2f}"]: two decimals, ties to even *)

Definition round_2f (x : Q) : Z :=
  let n := Z.abs (Qnum x) * 100 in
  let d := Zpos (Qden x) in
  let fl := n / d in
  let rem := n mod d in
  if d <? 2 * rem then fl + 1
  else if 2 * rem =? d then (if Z.even fl then fl else fl + 1)
  else fl.

Definition format_2f (x : Q) : string :=
  let h := round_2f x in
  (if Qnum x <? 0 then "-" else "")
  +:+ pretty (Z.to_N (h / 100)) +:+ "."
  +:+ pretty (Z.to_N ((h mod 100) / 10)) +:+ pretty (Z.to_N ((h mod 100) mod 10)).

(** ** The directed graph ([nx.DiGraph])

    [_adj] maps a node to the dictionary of its successors, which maps a
    successor to the attribute dictionary of the edge.  Every edge of
    [draw_network] carries the two attributes [weight] and [title]. *)

Record EdgeAttr := { weight : Q; title : string }.

Record DiGraph := { _adj : ODict.t Item (ODict.t Item EdgeAttr) }.

Definition empty_graph : DiGraph := {| _adj := [] |}.

Definition nodes (G : DiGraph) : list Item := ODict.keys (_adj G).

Definition add_node (n : Item) (G : DiGraph) : DiGraph :=
  if ODict.mem n (_adj G) then G else {| _adj := ODict.set n [] (_adj G) |}.

(** [G.add_edge(u, v, weight=.., title=..)]: both nodes are created when
    missing, and the attributes of an edge that is already there are
    overwritten ([datadict.update(attr)]). *)
Definition add_edge (u v : Item) (attr : EdgeAttr) (G : DiGraph) : DiGraph :=
  let G2 := add_node v (add_node u G) in
  let nbrs := default [] (ODict.get u (_adj G2)) in
  {| _adj := ODict.set u (ODict.set v attr nbrs) (_adj G2) |}.

Definition get_edge (u v : Item) (G : DiGraph) : option EdgeAttr :=
  ODict.get u (_adj G) ≫= ODict.get v.

(** [G.edges(data=True)] *)
Definition edges (G : DiGraph) : list ((Item * Item) * EdgeAttr) :=
  '(u, nbrs) ← _adj G; '(v, attr) ← nbrs; [((u, v), attr)].

(** Number of edges of [G] from [u] to [v]. *)
Definition edge_count (u v : Item) (G : DiGraph) : nat :=
  length (filter (λ e, e.1 = (u, v)) (edges G)).

(** ** [draw_network], up to the finished graph [G]

    The rendering of [G] by the visualisation library is not modelled. *)

Definition edge_attr (selected_metric : Metric) (row : Rule) : EdgeAttr :=
  {| weight := column selected_metric row;
     title := "Lift: " +:+ format_2f (lift row) |}.

Definition add_rule_edges (selected_metric : Metric) (G : DiGraph) (row : Rule)
    : DiGraph :=
  foldl (λ G ant,
      foldl (λ G cons, add_edge ant cons (edge_attr selected_metric row) G)
        G (elements (consequents row)))
    G (elements (antecedents row)).

Definition draw_network (rules : list Rule) (selected_metric : Metric)
    (min_val : Q) : DiGraph :=
  let filtered_rules := rows_ge (column selected_metric) min_val rules in
  foldl (add_rule_edges selected_metric) empty_graph filtered_rules.

(** ** Well-formed graphs and the rows behind an edge *)

(** A graph is well formed when no node and no successor is listed twice. *)
Definition wf_graph (G : DiGraph) : Prop :=
  NoDup (nodes G) ∧ ∀ u nbrs, (u, nbrs) ∈ _adj G → NoDup (ODict.keys nbrs).

(** [row] maps to the ordered pair [(u, v)]. *)
Definition produces (u v : Item) (row : Rule) : Prop :=
  u ∈ antecedents row ∧ v ∈ consequents row.

#[global] Instance produces_dec u v row : Decision (produces u v row).
Proof. unfold produces. apply _. Defined.

(** The last row of the table, in iteration order, that maps to [(u, v)]. *)
Definition last_producer (u v : Item) (rows : list Rule) : option Rule :=
  last (filter (produces u v) rows).


(** ** The graph parameters of the sidebar *)

(** [Series.min()] and [Series.max()]; an empty column has neither. *)
Definition Qmin' (x y : Q) : Q := if Qle_bool x y then x else y.
Definition Qmax' (x y : Q) : Q := if Qle_bool x y then y else x.

Definition series_min (s : list Q) : option Q :=
  match s with
  | [] => None
  | x :: s' => Some (foldl Qmin' x s')
  end.

Definition series_max (s : list Q) : option Q :=
  match s with
  | [] => None
  | x :: s' => Some (foldl Qmax' x s')
  end.

(** [st.sidebar.slider(.., min_value, max_value, value, step)]: the widget
    raises unless [min_value < max_value] and [value] lies between them;
    otherwise it returns [value] until the user moves it, and from then on
    the position it was moved to ([moved_to]). *)
Definition slider (moved_to : option Q) (min_value max_value value : Q)
    : result Q :=
  if Qle_bool max_value min_value then Err StreamlitAPIException
  else if Qle_bool min_value value && Qle_bool value max_value
  then Ok (default value moved_to)
  else Err StreamlitAPIException.

(** Lines 105-114 of [dashboard3.py]: the graph drawn for the rule table
    [rules] and the chosen metric.  The two ends of the slider are the
    least and the largest value of the column.  The stage is reached with
    a non-empty table only; for an empty column, which has no ends, the
    result is fixed here as the error of the slider. *)
Definition graph_stage (rules : list Rule) (metric_choice : Metric)
    (moved_to : option Q) : result DiGraph :=
  match series_min (column metric_choice <$> rules),
        series_max (column metric_choice <$> rules) with
  | Some min_val_default, Some max_val_default =>
      min_val ← slider moved_to min_val_default max_val_default min_val_default;
      Ok (draw_network rules metric_choice min_val)
  | _, _ => Err StreamlitAPIException
  end.

(** The collision policy named by the specification: the largest weight
    among the rows that map to the ordered pair [(u, v)]. *)
Definition max_weight (selected_metric : Metric) (u v : Item)
    (rows : list Rule) : option Q :=
  series_max (column selected_metric <$> filter (produces u v) rows).

(** ** The uploaded table and its one-hot encoding (lines 57-66) *)

(** One line of the uploaded CSV file; only these two columns are read.  A
    field left empty in the file is read as missing ([NaN]), here [None].
    Order ids are integers and product names are text; a file whose
    product column holds numbers, which [', '.join] refuses, is outside
    this embedding. *)
Record Row := { order_id : option Z; product : option string }.

(** A table with one row per [order_id] and one column per [product]. *)
Record DataFrame (A : Type) := {
  index : list Z;
  columns : list Item;
  values : list (list A);
}.
Global Arguments index {_} _.
Global Arguments columns {_} _.
Global Arguments values {_} _.

Definition df_map {A B} (f : A → B) (d : DataFrame A) : DataFrame B :=
  {| index := index d; columns := columns d;
     values := (λ row : list A, f <$> row) <$> values d |}.

(** The group key of a line; a line with a missing field has none. *)
Definition group_key (r : Row) : option (Z * Item) :=
  o ← order_id r; p ← product r; Some (o, p).

(** [df.groupby(['order_id', 'product'])['product'].count()]: the number of
    lines of every (order, product) group that occurs.  Grouping drops the
    lines with a missing key ([dropna=True]). *)
Definition count_row (s : gmap (Z * Item) nat) (r : Row) : gmap (Z * Item) nat :=
  match group_key r with
  | Some key => <[key := S (default 0%nat (s !! key))]> s
  | None => s
  end.

Definition groupby_count (df : list Row) : gmap (Z * Item) nat :=
  foldl count_row ∅ df.

(** [.unstack()]: group keys are sorted (strings by code point, [String.le]);
    a missing combination is [NaN]. *)
Definition unstack (s : gmap (Z * Item) nat) : DataFrame (option nat) :=
  let idx := merge_sort Z.le (elements (set_map fst (dom s) : gset Z)) in
  let cols := merge_sort String.le (elements (set_map snd (dom s) : gset Item)) in
  {| index := idx; columns := cols;
     values := (λ o, (λ p, s !! (o, p)) <$> cols) <$> idx |}.

(** [basket]: [.reset_index().fillna(0).set_index('order_id')] *)
Definition basket (df : list Row) : DataFrame nat :=
  df_map (default 0%nat) (unstack (groupby_count df)).

(** [basket_sets = (basket > 0).astype(int)] *)
Definition basket_sets (df : list Row) : DataFrame Z :=
  df_map (λ n, if bool_decide (0 < n)%nat then 1 else 0) (basket df).

(** The (order, product) pairs that occur in the uploaded table, on the
    lines that have both fields. *)
Definition pairs (df : list Row) : list (Z * Item) :=
  omap group_key df.

(** The matrix of presence bits of a set of (order, product) pairs: the
    contract of the transaction store, stated on the set of pairs. *)
Definition presence_matrix (present : gset (Z * Item)) : DataFrame Z :=
  let idx := merge_sort Z.le (elements (set_map fst present : gset Z)) in
  let cols := merge_sort String.le (elements (set_map snd present : gset Item)) in
  {| index := idx; columns := cols;
     values :=
       (λ o, (λ p, if bool_decide ((o, p) ∈ present) then 1 else 0) <$> cols)
         <$> idx |}.

(** ** Transactions and support *)

(** Modelled from the spec: the transaction store of section 4.1 read off
    the one-hot matrix; the mining library is not part of the dashboard.
    The items of one row of the matrix. *)
Definition row_items (cols : list Item) (row : list Z) : gset Item :=
  list_to_set (fst <$> filter (λ cx, cx.2 ≠ 0) (zip cols row)).

(** Modelled from the spec: the transactions of the store (section 3), one
    per row of the matrix. *)
Definition transactions (b : DataFrame Z) : list (gset Item) :=
  row_items (columns b) <$> values b.

(** Modelled from the spec: the total transaction count N (section 4.1). *)
Definition transaction_count (b : DataFrame Z) : nat := length (values b).

(** Modelled from the spec: the count of transactions whose item set is a
    superset of [X] (section 4.1). *)
Definition support_count (b : DataFrame Z) (X : gset Item) : nat :=
  length (filter (λ t, X ⊆ t) (transactions b)).

(** Modelled from the spec: support = count / N (section 3), as an exact
    ratio in lowest terms. *)
Definition itemset_support (b : DataFrame Z) (X : gset Item) : Q :=
  Qred (inject_Z (Z.of_nat (support_count b X))
        / inject_Z (Z.of_nat (transaction_count b))).

(** ** The mining library ([mlxtend.frequent_patterns]) *)

(** One line of the frequent-itemset table ([frequent_itemsets]). *)
Record FrequentItemset := { fi_support : Q; itemsets : gset Item }.

(** All sub-lists of a list; they enumerate the subsets of an itemset. *)
Fixpoint sublists {A} (l : list A) : list (list A) :=
  match l with
  | [] => [[]]
  | x :: l' => ((x ::.) <$> sublists l') ++ sublists l'
  end.

Module Mlxtend.

(** The dashboard imports [apriori] and [association_rules] from the mining
    library and calls them as opaque functions; their code is not part of
    the dashboard.  They are modelled here from sections 4.2 (ItemsetMiner)
    and 4.3 (RuleGenerator) of the specification. *)

(** Modelled from the spec: an itemset is frequent when its support reaches
    [min_support] (section 4.2, inclusive comparison). *)

Definition frequent (b : DataFrame Z) (min_support : Q) (X : gset Item) : Prop :=
  Qle_bool min_support (itemset_support b X) = true.

#[global] Instance frequent_dec b ms X : Decision (frequent b ms X).
Proof. unfold frequent. apply _. Defined.

(** Modelled from the spec: the frequent itemsets of size [k] over the
    columns of the matrix, which level [k] of the search is meant to hold
    (section 3, FrequentItemset). *)
Definition frequent_of_size (b : DataFrame Z) (min_support : Q) (k : nat)
    (X : gset Item) : Prop :=
  size X = k ∧ X ⊆ list_to_set (columns b) ∧ frequent b min_support X.

(** Modelled from the spec: level 1 of [apriori] (section 4.2, step 1):
    every distinct item whose support reaches the threshold. *)
Definition level1 (b : DataFrame Z) (min_support : Q) : list (gset Item) :=
  filter (frequent b min_support)
    ((λ c, {[c]}) <$> remove_dups (columns b)).

(** Modelled from the spec: the join step of [apriori] (section 4.2, step
    2): unions of two frequent (k-1)-itemsets sharing exactly k-2 items. *)
Definition join (k : nat) (L : list (gset Item)) : list (gset Item) :=
  remove_dups
    (A ← L; B ← L;
     if decide (size (A ∩ B) = (k - 2)%nat) then [A ∪ B] else []).

(** Modelled from the spec: the prune step of [apriori] (section 4.2, step
    2): every (k-1)-subset of a candidate must be in L(k-1). *)
Definition prune (L : list (gset Item)) (cands : list (gset Item))
    : list (gset Item) :=
  filter (λ C, set_Forall (λ x, C ∖ {[x]} ∈ L) C) cands.

(** Modelled from the spec: level k of [apriori] (section 4.2, step 3): the
    surviving candidates whose support reaches the threshold. *)
Definition next_level (b : DataFrame Z) (min_support : Q) (k : nat)
    (L : list (gset Item)) : list (gset Item) :=
  filter (frequent b min_support) (prune L (join k L)).

(** Modelled from the spec: the loop of [apriori] (section 4.2, step 4):
    levels k, k+1, ... built from L(k-1), until a level is empty or the
    budget of levels is used up. *)
Fixpoint levels_from (b : DataFrame Z) (min_support : Q) (budget k : nat)
    (L : list (gset Item)) : list (list (gset Item)) :=
  match budget with
  | O => []
  | S budget' =>
      match next_level b min_support k L with
      | [] => []
      | Lk => Lk :: levels_from b min_support budget' (S k) Lk
      end
  end.

(** Modelled from the spec: the itemsets returned by [apriori] (section 4.2,
    steps 1 and 4): the union of the levels, up to the number of distinct
    items. *)
Definition mine (b : DataFrame Z) (min_support : Q) : list (gset Item) :=
  match level1 b min_support with
  | [] => []
  | L1 =>
      L1 ++ concat (levels_from b min_support
                      (length (remove_dups (columns b)) - 1) 2 L1)
  end.

(** Modelled from the spec: the line of the frequent-itemset table for the
    itemset [X], the itemset paired with its support (section 3). *)
Definition table_row (b : DataFrame Z) (X : gset Item) : FrequentItemset :=
  {| fi_support := itemset_support b X; itemsets := X |}.

(** Modelled from the spec: the transaction store that mining reads
    (sections 3, 4.1 and 7): a store with zero transactions is an
    [EmptyDatasetError], raised before mining begins. *)
Definition transaction_store (b : DataFrame Z) : result (list (gset Item)) :=
  if decide (transaction_count b = 0%nat) then Err EmptyDatasetError
  else Ok (transactions b).

(** Modelled from the spec: [apriori(basket_sets, min_support=..,
    use_colnames=True)] of the mining library (section 4.2).  The store is
    checked first; a threshold outside (0, 1] is a configuration error;
    then the levels are searched. *)
Definition apriori (b : DataFrame Z) (min_support : Q)
    : result (list FrequentItemset) :=
  _ ← transaction_store b;
  if negb (Qle_bool min_support 0) && Qle_bool min_support 1 then
    Ok (table_row b <$> mine b min_support)
  else Err ConfigurationError.

(** Modelled from the spec: the support of an itemset as recorded by mining
    (section 4.3, already known from mining). *)
Definition lookup_support (frequent_itemsets : list FrequentItemset)
    (X : gset Item) : option Q :=
  fi_support <$> head (filter (λ f, itemsets f = X) frequent_itemsets).

(** Modelled from the spec: the non-empty, non-trivial bipartitions of [X]
    (section 4.3). *)
Definition bipartitions (X : gset Item) : list (gset Item * gset Item) :=
  (λ A, (A, X ∖ A))
    <$> filter (λ A, A ≠ ∅ ∧ A ≠ X) (list_to_set <$> sublists (elements X)).

(** Modelled from the spec: the candidate rules of [association_rules]
    (section 4.3): every bipartition of every frequent itemset of size at
    least 2. *)
Definition rule_candidates (frequent_itemsets : list FrequentItemset)
    : list (FrequentItemset * (gset Item * gset Item)) :=
  f ← filter (λ f, (2 ≤ size (itemsets f))%nat) frequent_itemsets;
  (λ ac, (f, ac)) <$> bipartitions (itemsets f).

(** Modelled from the spec: the metrics of one candidate of
    [association_rules] (section 4.3).  A missing or zero antecedent
    support is a defect of the mining stage.  The row records the two
    supports it was computed from; the metrics that section 3 leaves
    optional are not computed, so [further] is empty. *)
Definition score_rule (frequent_itemsets : list FrequentItemset)
    (fac : FrequentItemset * (gset Item * gset Item)) : result Rule :=
  let '(f, (a, c)) := fac in
  match lookup_support frequent_itemsets a,
        lookup_support frequent_itemsets c with
  | Some sA, Some sC =>
      if Qle_bool sA 0 then Err InvariantViolationError
      else
        let conf := Qred (fi_support f / sA) in
        Ok {| antecedents := a; consequents := c;
              antecedent_support := sA; consequent_support := sC;
              support := fi_support f;
              confidence := conf;
              lift := Qred (conf / sC);
              further := [] |}
  | _, _ => Err InvariantViolationError
  end.

(** Modelled from the spec: [association_rules(frequent_itemsets,
    metric="confidence", min_threshold=..)] of the mining library (section
    4.3): a candidate is emitted when its confidence reaches the
    threshold. *)
Definition association_rules (frequent_itemsets : list FrequentItemset)
    (min_threshold : Q) : result (list Rule) :=
  scored ← mapM (score_rule frequent_itemsets)
              (rule_candidates frequent_itemsets);
  Ok (rows_ge confidence min_threshold scored).

(** Modelled from the spec: the rule [A → C] with the metrics of section
    4.3 computed from the transaction store: support of the union,
    confidence, lift, next to the supports of the two sides they are
    computed from. *)
Definition rule_metrics (b : DataFrame Z) (A C : gset Item) : Rule :=
  let s := itemset_support b (A ∪ C) in
  let conf := Qred (s / itemset_support b A) in
  {| antecedents := A; consequents := C;
     antecedent_support := itemset_support b A;
     consequent_support := itemset_support b C;
     support := s;
     confidence := conf;
     lift := Qred (conf / itemset_support b C);
     further := [] |}.

End Mlxtend.
(** ** The displayed rule table and its CSV export (lines 68-84 of
    [dashboardd.py]) *)

(** A row of [display_rules = rules.copy()]: every column of the rule
    table, with the two item sets flattened to text. *)
Record DisplayRule := {
  d_antecedents : string;
  d_consequents : string;
  d_antecedent_support : Q;
  d_consequent_support : Q;
  d_support : Q;
  d_confidence : Q;
  d_lift : Q;
  d_further : list Q;
}.

(** [lambda a: ', '.join(list(a))] *)
Definition join_items (a : gset Item) : string :=
  String.concat ", " (elements a).

Definition display_rules (rules : list Rule) : list DisplayRule :=
  (λ r, {| d_antecedents := join_items (antecedents r);
           d_consequents := join_items (consequents r);
           d_antecedent_support := antecedent_support r;
           d_consequent_support := consequent_support r;
           d_support := support r;
           d_confidence := confidence r;
           d_lift := lift r;
           d_further := further r |}) <$> rules.

Definition quotechar : ascii := "034"%char.
Definition newline : ascii := "010"%char.
Definition comma : ascii := ","%char.

(** Characters that force a field to be quoted (minimal quoting): the
    delimiter, the quote character and the line terminator. *)
Definition special (c : ascii) : bool :=
  (c =? comma)%char || (c =? quotechar)%char || (c =? newline)%char.

Fixpoint needs_quote (s : string) : bool :=
  match s with
  | EmptyString => false
  | String c s' => special c || needs_quote s'
  end.

Fixpoint escape_quotes (s : string) : string :=
  match s with
  | EmptyString => EmptyString
  | String c s' =>
      if (c =? quotechar)%char
      then String quotechar (String quotechar (escape_quotes s'))
      else String c (escape_quotes s')
  end.

Definition csv_field (s : string) : string :=
  if needs_quote s
  then String quotechar (escape_quotes s +:+ String quotechar EmptyString)
  else s.

Definition csv_line (fields : list string) : string :=
  String.concat "," fields +:+ String newline EmptyString.

(** [writer.writerow(cells)]: every cell goes through the quoting rule. *)
Definition writerow (cells : list string) : string :=
  csv_line (csv_field <$> cells).

Definition writerows (table : list (list string)) : string :=
  foldr (λ cells rest, writerow cells +:+ rest) EmptyString table.

(** Modelled from the spec: the text of a number in the export.  The
    writer of the data-frame library is not part of the dashboard; section
    6 fixes no format and asks that what is read back be what was
    written.  The metric values of this embedding are exact ratios, and a
    ratio is written as numerator, slash, denominator, in decimal
    digits. *)
Definition float_repr (q : Q) : string :=
  DecimalString.NilZero.string_of_int (Z.to_int (Qnum q))
  +:+ String "/" (DecimalString.NilZero.string_of_uint (Pos.to_uint (Qden q))).

Section frame.
(** The names of the [further] columns of the library's frame. *)
Variable further_columns : list string.

Definition csv_header : list string :=
  ["antecedents"; "consequents"; "antecedent support"; "consequent support";
   "support"; "confidence"; "lift"]%string ++ further_columns.

(** The numeric cells of a row, in the order of the columns. *)
Definition numbers (r : DisplayRule) : list Q :=
  [d_antecedent_support r; d_consequent_support r; d_support r;
   d_confidence r; d_lift r] ++ d_further r.

Definition csv_row (r : DisplayRule) : list string :=
  d_antecedents r :: d_consequents r :: (float_repr <$> numbers r).

(** [df.to_csv(index=False)]: a header line and one line per row, fields
    separated by commas and quoted only when they must be. *)
Definition to_csv (df : list DisplayRule) : string :=
  writerows (csv_header :: (csv_row <$> df)).

(** [convert_df_to_csv(display_rules)]; the UTF-8 encoding of the text is
    the text itself, a sequence of bytes. *)
Definition convert_df_to_csv (df : list DisplayRule) : string := to_csv df.

End frame.

(** ** Reading the export back *)

Inductive csv_state := Unquoted (at_start : bool) | Quoted | QuoteInQuoted.

(** One pass over the text; [fld], [row] and [rows] are the field, the
    line and the lines read so far. *)
Fixpoint csv_scan (st : csv_state) (fld : string) (row : list string)
    (rows : list (list string)) (s : string) : option (list (list string)) :=
  match s with
  | EmptyString =>
      match st, fld, row with
      | Unquoted true, EmptyString, [] => Some rows
      | _, _, _ => None
      end
  | String c s' =>
      match st with
      | Unquoted at_start =>
          if (c =? comma)%char
          then csv_scan (Unquoted true) EmptyString (row ++ [fld]) rows s'
          else if (c =? newline)%char
          then csv_scan (Unquoted true) EmptyString [] (rows ++ [row ++ [fld]]) s'
          else if (c =? quotechar)%char
          then (if at_start then csv_scan Quoted EmptyString row rows s' else None)
          else csv_scan (Unquoted false) (fld +:+ String c EmptyString) row rows s'
      | Quoted =>
          if (c =? quotechar)%char
          then csv_scan QuoteInQuoted fld row rows s'
          else csv_scan Quoted (fld +:+ String c EmptyString) row rows s'
      | QuoteInQuoted =>
          if (c =? quotechar)%char
          then csv_scan Quoted (fld +:+ String quotechar EmptyString) row rows s'
          else if (c =? comma)%char
          then csv_scan (Unquoted true) EmptyString (row ++ [fld]) rows s'
          else if (c =? newline)%char
          then csv_scan (Unquoted true) EmptyString [] (rows ++ [row ++ [fld]]) s'
          else None
      end
  end.

Definition read_csv (s : string) : option (list (list string)) :=
  csv_scan (Unquoted true) EmptyString [] [] s.






Section frame_import.
Variable further_columns : list string.



End frame_import.


(** ** The dashboard script (lines 56-114) *)

(** The two functions imported from the mining library. *)
Record Library := {
  lib_apriori : DataFrame Z → Q → result (list FrequentItemset);
  lib_association_rules : list FrequentItemset → Q → result (list Rule);
}.

(** The mining library as the specification describes it. *)
Definition mlxtend : Library :=
  {| lib_apriori := Mlxtend.apriori;
     lib_association_rules := Mlxtend.association_rules |}.

(** What a run shows: the warning for an empty rule table, or the rule
    table, its displayed form and the drawn graph. *)
Inductive Outcome :=
  | NoRulesWarning
  | Dashboard (rules : list Rule) (shown : list DisplayRule) (graph : DiGraph).

(** The filtered rule table: mining, rule generation, lift filter. *)
Definition mine_rules (lib : Library) (df : list Row)
    (min_support min_confidence min_lift : Q) : result (list Rule) :=
  frequent_itemsets ← lib_apriori lib (basket_sets df) min_support;
  rules ← lib_association_rules lib frequent_itemsets min_confidence;
  Ok (rows_ge lift min_lift rules).

(** The body of [if uploaded_file:].  Showing the table sorted by lift and
    offering the export for download are output only and are left out.  An
    exception ends the run: one of the two library calls, or the slider of
    the graph stage, which comes after the table was shown.  Item names
    are text, as [', '.join] needs them. *)
Definition main (lib : Library) (df : list Row)
    (min_support min_confidence min_lift : Q)
    (metric_choice : Metric) (moved_to : option Q) : result Outcome :=
  rules ← mine_rules lib df min_support min_confidence min_lift;
  if bool_decide (rules = []) then Ok NoRulesWarning
  else
    G ← graph_stage rules metric_choice moved_to;
    Ok (Dashboard rules (display_rules rules) G).

(** ** Example data *)

(** Two rules of the table mined from the four baskets
    [{a,b}], [{a,b,c}], [{a}], [{b,c}]. *)
Definition rule_a_b : Rule :=
  {| antecedents := {["a"]}; consequents := {["b"]};
     antecedent_support := 3 # 4; consequent_support := 3 # 4;
     support := 1 # 2; confidence := 2 # 3; lift := 8 # 9; further := [] |}.
Definition rule_a_bc : Rule :=
  {| antecedents := {["a"]}; consequents := {["b"; "c"]};
     antecedent_support := 3 # 4; consequent_support := 1 # 2;
     support := 1 # 4; confidence := 1 # 3; lift := 2 # 3; further := [] |}.

(** The worked example: four baskets, T1 = {milk, bread},
    T2 = {milk, bread, eggs}, T3 = {milk}, T4 = {bread, eggs}. *)
Definition example_df : list Row :=
  [ {| order_id := Some 1; product := Some "milk" |};
    {| order_id := Some 1; product := Some "bread" |};
    {| order_id := Some 2; product := Some "milk" |};
    {| order_id := Some 2; product := Some "bread" |};
    {| order_id := Some 2; product := Some "eggs" |};
    {| order_id := Some 3; product := Some "milk" |};
    {| order_id := Some 4; product := Some "bread" |};
    {| order_id := Some 4; product := Some "eggs" |} ].

(** The frequent itemsets of the worked example at [min_support = 0.5]. *)
Definition example_frequent_itemsets : list FrequentItemset :=
  [ {| fi_support := 3 # 4; itemsets := {["bread"]} |};
    {| fi_support := 1 # 2; itemsets := {["eggs"]} |};
    {| fi_support := 3 # 4; itemsets := {["milk"]} |};
    {| fi_support := 1 # 2; itemsets := {["eggs"; "bread"]} |};
    {| fi_support := 1 # 2; itemsets := {["milk"; "bread"]} |} ].

(** The rule milk → bread of the worked example. *)
Definition rule_milk_bread : Rule :=
  {| antecedents := {["milk"]}; consequents := {["bread"]};
     antecedent_support := 3 # 4; consequent_support := 3 # 4;
     support := 1 # 2; confidence := 2 # 3; lift := 8 # 9; further := [] |}.

(** The rules generated in the worked example at [min_confidence = 0.5]. *)
Definition example_rules : list Rule :=
  [ {| antecedents := {["eggs"]}; consequents := {["bread"]};
       antecedent_support := 1 # 2; consequent_support := 3 # 4;
       support := 1 # 2; confidence := 1; lift := 4 # 3; further := [] |};
    {| antecedents := {["bread"]}; consequents := {["eggs"]};
       antecedent_support := 3 # 4; consequent_support := 1 # 2;
       support := 1 # 2; confidence := 2 # 3; lift := 4 # 3; further := [] |};
    rule_milk_bread;
    {| antecedents := {["bread"]}; consequents := {["milk"]};
       antecedent_support := 3 # 4; consequent_support := 3 # 4;
       support := 1 # 2; confidence := 2 # 3; lift := 8 # 9; further := [] |} ].

(** The rule eggs → bread of the worked example: the only rule left at
    [min_confidence = 0.7]. *)
Definition rule_eggs_bread : Rule :=
  {| antecedents := {["eggs"]}; consequents := {["bread"]};
     antecedent_support := 1 # 2; consequent_support := 3 # 4;
     support := 1 # 2; confidence := 1; lift := 4 # 3; further := [] |}.

(** The frequent itemsets that the worked example of the specification
    lists for [min_support = 0.5]. *)
Definition claimed_frequent_itemsets : list FrequentItemset :=
  [ {| fi_support := 3 # 4; itemsets := {["milk"]} |};
    {| fi_support := 3 # 4; itemsets := {["bread"]} |};
    {| fi_support := 1 # 2; itemsets := {["milk"; "bread"]} |} ].



(** A displayed row whose text fields hold a comma, a quote and a line
    break. *)
Definition awkward_display_row : DisplayRule :=
  {| d_antecedents :=
       String "a" (String comma (String quotechar (String newline "b")));
     d_consequents := String quotechar (String quotechar ", c");
     d_antecedent_support := 3 # 4; d_consequent_support := 3 # 4;
     d_support := 1 # 2; d_confidence := 2 # 3; d_lift := 8 # 9;
     d_further := [1 # 9; 3 # 1] |}.

(** The filtered rule table of a run on the worked example with
    [min_support = 0.25], [min_confidence = 0.5] and [min_lift = 1]. *)
Definition example_run_rules : list Rule :=
  [ {| antecedents := {["eggs"]}; consequents := {["bread"]};
       antecedent_support := 1 # 2; consequent_support := 3 # 4;
       support := 1 # 2; confidence := 1; lift := 4 # 3; further := [] |};
    {| antecedents := {["bread"]}; consequents := {["eggs"]};
       antecedent_support := 3 # 4; consequent_support := 1 # 2;
       support := 1 # 2; confidence := 2 # 3; lift := 4 # 3; further := [] |};
    {| antecedents := {["milk"; "eggs"]}; consequents := {["bread"]};
       antecedent_support := 1 # 4; consequent_support := 3 # 4;
       support := 1 # 4; confidence := 1; lift := 4 # 3; further := [] |};
    {| antecedents := {["milk"; "bread"]}; consequents := {["eggs"]};
       antecedent_support := 1 # 2; consequent_support := 1 # 2;
       support := 1 # 4; confidence := 1 # 2; lift := 1; further := [] |};
    {| antecedents := {["eggs"]}; consequents := {["milk"; "bread"]};
       antecedent_support := 1 # 2; consequent_support := 1 # 2;
       support := 1 # 4; confidence := 1 # 2; lift := 1; further := [] |} ].
(** ** Facts about insertion-ordered dictionaries *)

Module ODictFacts.
Import ODict.
Section odict.
Context {K V : Type} `{EqDecision K}.
Implicit Types (d : ODict.t K V).

Lemma get_set_eq k v d : get k (set k v d) = Some v.
Proof.
  induction d as [|[k' v'] d IH]; simpl.
  - by rewrite decide_True.
  - destruct (decide (k' = k)); simpl.
    + by rewrite decide_True.
    + by rewrite decide_False.
Qed.

Lemma get_set_ne k k' v d : k ≠ k' → get k' (set k v d) = get k' d.
Proof.
  intros Hne. induction d as [|[k0 v0] d IH]; simpl.
  - by rewrite decide_False.
  - destruct (decide (k0 = k)) as [->|]; simpl.
    + by rewrite !decide_False.
    + by rewrite IH.
Qed.

Lemma get_set k k' v d :
  get k' (set k v d) = if decide (k = k') then Some v else get k' d.
Proof.
  destruct (decide (k = k')) as [->|]; auto using get_set_eq, get_set_ne.
Qed.

Lemma get_is_Some k d : is_Some (get k d) ↔ k ∈ keys d.
Proof.
  unfold keys. induction d as [|[k' v'] d IH]; simpl.
  - split; [by intros [? ?]|by intros ?%elem_of_nil].
  - rewrite elem_of_cons. destruct (decide (k' = k)) as [->|].
    + split; eauto.
    + rewrite IH. split; [auto|]. intros [?|?]; [congruence|done].
Qed.

Lemma get_None k d : get k d = None ↔ k ∉ keys d.
Proof. rewrite <- get_is_Some, eq_None_not_Some. done. Qed.

Lemma get_elem_of k v d : get k d = Some v → (k, v) ∈ d.
Proof.
  induction d as [|[k' v'] d IH]; simpl; [done|].
  destruct (decide (k' = k)) as [->|].
  - intros [= ->]. left.
  - intros ?. right. auto.
Qed.

Lemma keys_set k v d :
  keys (set k v d) = if decide (k ∈ keys d) then keys d else keys d ++ [k].
Proof.
  unfold keys. induction d as [|[k' v'] d IH]; csimpl.
  - done.
  - destruct (decide (k' = k)) as [->|Hne]; csimpl.
    + destruct (decide (k ∈ k :: d.*1)) as [Hin|Hin]; [done|]. destruct Hin. left.
    + rewrite IH.
      destruct (decide (k ∈ d.*1)) as [Hin|Hin];
        destruct (decide (k ∈ k' :: d.*1)) as [Hin'|Hin']; try done.
      * destruct Hin'. by right.
      * apply elem_of_cons in Hin' as [?|?]; [congruence|done].
Qed.

Lemma elem_of_keys_set k k' v d :
  k' ∈ keys (set k v d) ↔ k' = k ∨ k' ∈ keys d.
Proof.
  rewrite keys_set. case_decide.
  - naive_solver.
  - rewrite elem_of_app, list_elem_of_singleton. naive_solver.
Qed.

Lemma NoDup_keys_set k v d : NoDup (keys d) → NoDup (keys (set k v d)).
Proof.
  intros Hnd. rewrite keys_set. case_decide; [done|].
  apply NoDup_app. split_and!; [done| |apply NoDup_singleton].
  intros x Hx ->%list_elem_of_singleton. done.
Qed.

Lemma NoDup_keys_get k v d : NoDup (keys d) → (k, v) ∈ d → get k d = Some v.
Proof.
  unfold keys. induction d as [|[k' v'] d IH]; simpl.
  - by intros _ ?%elem_of_nil.
  - intros [Hk Hnd]%NoDup_cons [[= -> ->]|Hin]%elem_of_cons.
    + by rewrite decide_True.
    + rewrite decide_False; [auto|].
      intros ->. apply Hk. apply list_elem_of_fmap. by exists (k, v).
Qed.
End odict.
End ODictFacts.



(** ** Properties of the graph operations *)

Section graph.
Implicit Types (G : DiGraph) (u v n : Item) (attr : EdgeAttr).

Lemma get_add_node n u G :
  ODict.get u (_adj (add_node n G))
  = if decide (n = u ∧ n ∉ nodes G) then Some [] else ODict.get u (_adj G).
Proof.
  unfold add_node, ODict.mem, nodes.
  destruct (bool_decide_reflect (n ∈ ODict.keys (_adj G))) as [Hin|Hin]; simpl.
  - destruct (decide _) as [[_ ?]|]; done.
  - rewrite ODictFacts.get_set.
    destruct (decide (n = u)), (decide _) as [[? ?]|Hd]; try done.
    destruct Hd. done.
Qed.

Lemma get_edge_add_node n u v G : get_edge u v (add_node n G) = get_edge u v G.
Proof.
  unfold get_edge. rewrite get_add_node.
  destruct (decide _) as [[-> Hn]|]; [|done].
  apply ODictFacts.get_None in Hn. by rewrite Hn.
Qed.

Lemma elem_of_nodes_add_node n n' G :
  n' ∈ nodes (add_node n G) ↔ n' = n ∨ n' ∈ nodes G.
Proof.
  unfold add_node, ODict.mem, nodes.
  destruct (bool_decide_reflect (n ∈ ODict.keys (_adj G))) as [Hin|Hin]; simpl.
  - split; [auto|]. intros [->|?]; done.
  - apply ODictFacts.elem_of_keys_set.
Qed.

Lemma get_edge_add_edge u v attr u' v' G :
  get_edge u' v' (add_edge u v attr G)
  = if decide (u = u' ∧ v = v') then Some attr else get_edge u' v' G.
Proof.
  unfold add_edge. set (G2 := add_node v (add_node u G)).
  assert (HG2 : ∀ x y, get_edge x y G2 = get_edge x y G).
  { intros x y. unfold G2. by rewrite !get_edge_add_node. }
  unfold get_edge at 1; simpl. rewrite ODictFacts.get_set.
  destruct (decide (u = u')) as [<-|Hu]; simpl.
  - rewrite ODictFacts.get_set. destruct (decide (v = v')) as [<-|Hv].
    + by rewrite decide_True.
    + rewrite decide_False by (by intros [_ ?]).
      rewrite <- HG2. unfold get_edge.
      by destruct (ODict.get u (_adj G2)).
  - rewrite decide_False by (by intros [? _]). apply HG2.
Qed.

Lemma elem_of_nodes_add_edge u v attr n G :
  n ∈ nodes (add_edge u v attr G) ↔ n = u ∨ n = v ∨ n ∈ nodes G.
Proof.
  unfold add_edge. set (G2 := add_node v (add_node u G)).
  assert (HG2 : ∀ x, x ∈ nodes G2 ↔ x = u ∨ x = v ∨ x ∈ nodes G).
  { intros x. unfold G2. rewrite !elem_of_nodes_add_node. tauto. }
  unfold nodes at 1; simpl. rewrite ODictFacts.elem_of_keys_set.
  fold (nodes G2). rewrite HG2. tauto.
Qed.

(** Folding [add_edge] over the consequents of one antecedent. *)
Lemma get_edge_foldl_cons attr a cs u v G :
  get_edge u v (foldl (λ G c, add_edge a c attr G) G cs)
  = if decide (a = u ∧ v ∈ cs) then Some attr else get_edge u v G.
Proof.
  revert G. induction cs as [|c cs IH]; intros G; simpl.
  - rewrite decide_False; [done|]. intros [_ ?%elem_of_nil]. done.
  - rewrite IH, get_edge_add_edge.
    destruct (decide (a = u ∧ v ∈ cs)) as [[? ?]|Hn].
    + rewrite decide_True; [done|]. split; [done|]. by right.
    + destruct (decide (a = u ∧ c = v)) as [[-> ->]|Hn'].
      * rewrite decide_True; [done|]. split; [done|]. left.
      * rewrite decide_False; [done|].
        intros [? [->|?]%elem_of_cons]; [by apply Hn'|by apply Hn].
Qed.

Lemma elem_of_nodes_foldl_cons attr a cs n G :
  n ∈ nodes (foldl (λ G c, add_edge a c attr G) G cs)
  ↔ n ∈ nodes G ∨ (cs ≠ [] ∧ n = a) ∨ n ∈ cs.
Proof.
  revert G. induction cs as [|c cs IH]; intros G; simpl.
  - split; [auto|]. intros [?|[[? _]|?%elem_of_nil]]; done.
  - rewrite IH, elem_of_nodes_add_edge, elem_of_cons.
    split; [|naive_solver]. intros [[->|[->|?]]|[[_ ->]|?]]; auto.
Qed.
End graph.

Section graph_wf.
Implicit Types (G : DiGraph) (u v n : Item) (attr : EdgeAttr).

Lemma wf_empty_graph : wf_graph empty_graph.
Proof.
  split; [apply NoDup_nil_2|]. by intros u nbrs ?%elem_of_nil.
Qed.

Lemma elem_of_set_inv {V} (k k' : Item) (x x' : V) (d : ODict.t Item V) :
  (k', x') ∈ ODict.set k x d → (k', x') = (k, x) ∨ (k', x') ∈ d.
Proof.
  induction d as [|[k0 x0] d IH]; simpl.
  - intros ?%list_elem_of_singleton. auto.
  - destruct (decide (k0 = k)) as [->|].
    + intros [?|?]%elem_of_cons; [auto|]. right. by right.
    + intros [->|?]%elem_of_cons; [right; left|].
      destruct IH as [?|?]; [done|auto|]. right. by right.
Qed.

Lemma wf_add_node n G : wf_graph G → wf_graph (add_node n G).
Proof.
  intros [Hn He]. unfold add_node, ODict.mem.
  destruct (bool_decide_reflect (n ∈ ODict.keys (_adj G))); [done|].
  split; simpl.
  - by apply ODictFacts.NoDup_keys_set.
  - intros u nbrs [[= -> ->]|?]%elem_of_set_inv; [apply NoDup_nil_2|eauto].
Qed.

Lemma wf_add_edge u v attr G : wf_graph G → wf_graph (add_edge u v attr G).
Proof.
  intros HG. unfold add_edge. set (G2 := add_node v (add_node u G)).
  assert (HG2 : wf_graph G2) by (by apply wf_add_node, wf_add_node).
  destruct HG2 as [Hn He]. split; simpl.
  - by apply ODictFacts.NoDup_keys_set.
  - intros u' nbrs [[= -> ->]|?]%elem_of_set_inv; [|eauto].
    apply ODictFacts.NoDup_keys_set.
    destruct (ODict.get u (_adj G2)) as [nb|] eqn:Hg; simpl.
    + eapply He, ODictFacts.get_elem_of, Hg.
    + apply NoDup_nil_2.
Qed.

Lemma elem_of_edges u v attr G :
  ((u, v), attr) ∈ edges G ↔ ∃ nbrs, (u, nbrs) ∈ _adj G ∧ (v, attr) ∈ nbrs.
Proof.
  unfold edges. rewrite list_elem_of_bind. split.
  - intros [[u' nbrs] [Hin Hu]]. apply list_elem_of_bind in Hin.
    destruct Hin as [[v' a'] [Hin Hv]].
    apply list_elem_of_singleton in Hin. simplify_eq. eauto.
  - intros [nbrs [Hu Hv]]. exists (u, nbrs). split; [|done].
    apply list_elem_of_bind. exists (v, attr). split; [|done].
    by apply list_elem_of_singleton.
Qed.

Lemma elem_of_edges_get u v attr G :
  wf_graph G → ((u, v), attr) ∈ edges G ↔ get_edge u v G = Some attr.
Proof.
  intros [Hn He]. rewrite elem_of_edges. unfold get_edge. split.
  - intros [nbrs [Hu Hv]].
    rewrite (ODictFacts.NoDup_keys_get _ _ _ Hn Hu). simpl.
    apply ODictFacts.NoDup_keys_get; eauto.
  - destruct (ODict.get u (_adj G)) as [nbrs|] eqn:Hg; simpl; [|done].
    intros Hv. exists nbrs. eauto using ODictFacts.get_elem_of.
Qed.

Lemma elem_of_out_edges u x y (nbrs : ODict.t Item EdgeAttr) :
  (x, y) ∈ (nbrs ≫= λ '(v, attr), [((u, v), attr)]).*1 → x = u ∧ y ∈ nbrs.*1.
Proof.
  induction nbrs as [|[v a] nbrs IH]; csimpl.
  - by intros ?%elem_of_nil.
  - intros [[= -> ->]|Hin]%elem_of_cons; [split; [done|left]|].
    destruct (IH Hin). split; [done|by right].
Qed.

Lemma NoDup_edges G : wf_graph G → NoDup (edges G).*1.
Proof.
  intros [Hn He]. unfold edges, nodes, ODict.keys in *.
  induction (_adj G) as [|[u nbrs] d IH]; csimpl; [apply NoDup_nil_2|].
  csimpl in Hn. apply NoDup_cons in Hn as [Hu Hn].
  rewrite fmap_app. apply NoDup_app. split_and!.
  - assert (Hnb : NoDup nbrs.*1) by (eapply He; left).
    clear -Hnb. induction nbrs as [|[v a] nbrs IH]; csimpl.
    + apply NoDup_nil_2.
    + apply NoDup_cons in Hnb as [Hv Hnb]. apply NoDup_cons. split; [|auto].
      by intros [_ ?]%elem_of_out_edges.
  - intros [x y] [-> _]%elem_of_out_edges Hy. apply Hu. clear -Hy.
    induction d as [|[u' nb'] d IH]; csimpl in *.
    + by apply elem_of_nil in Hy.
    + rewrite fmap_app in Hy. apply elem_of_app in Hy as [Hy|Hy].
      * apply elem_of_out_edges in Hy as [-> _]. left.
      * right. auto.
  - apply IH; [done|]. intros u' nb' Hin. eapply He. by right.
Qed.

Lemma count_NoDup {A} `{EqDecision A} (k : A) (l : list A) :
  NoDup l → length (filter (λ x, x = k) l) = if decide (k ∈ l) then 1%nat else 0%nat.
Proof.
  induction 1 as [|x l Hx Hl IH]; [done|].
  rewrite filter_cons. destruct (decide (x = k)) as [->|Hne]; simpl.
  - rewrite IH, decide_False by done. rewrite decide_True; [done|left].
  - rewrite IH. destruct (decide (k ∈ l)).
    + rewrite decide_True; [done|by right].
    + rewrite decide_False; [done|].
      intros [?|?]%elem_of_cons; [congruence|done].
Qed.

(** In a well-formed graph an ordered pair of nodes carries at most one
    edge, and it carries one exactly when [get_edge] finds it. *)
Lemma edge_count_get u v G :
  wf_graph G →
  edge_count u v G = match get_edge u v G with Some _ => 1%nat | None => 0%nat end.
Proof.
  intros HG. unfold edge_count.
  assert (Hlen : length (filter (λ e, e.1 = (u, v)) (edges G))
               = length (filter (λ k, k = (u, v)) (edges G).*1)).
  { induction (edges G) as [|[k a] l IH]; [done|].
    csimpl. rewrite !filter_cons. simpl.
    destruct (decide (k = (u, v))); simpl; by rewrite IH. }
  rewrite Hlen, count_NoDup by (by apply NoDup_edges).
  destruct (get_edge u v G) as [attr|] eqn:Hg.
  - rewrite decide_True; [done|].
    apply elem_of_edges_get in Hg; [|done].
    apply list_elem_of_fmap. by exists ((u, v), attr).
  - rewrite decide_False; [done|].
    intros [[k a] [Hk Hin]]%list_elem_of_fmap. simpl in Hk. subst k.
    apply elem_of_edges_get in Hin; [|done]. congruence.
Qed.
End graph_wf.

Section edge_folding.
Variable selected_metric : Metric.
Implicit Types (G : DiGraph) (u v n : Item) (row : Rule) (rows : list Rule).

Lemma get_edge_foldl_ants attr ants conss u v G :
  get_edge u v
    (foldl (λ G a, foldl (λ G c, add_edge a c attr G) G conss) G ants)
  = if decide (u ∈ ants ∧ v ∈ conss) then Some attr else get_edge u v G.
Proof.
  revert G. induction ants as [|a ants IH]; intros G; simpl.
  - done.
  - rewrite IH, get_edge_foldl_cons.
    destruct (decide (u ∈ ants ∧ v ∈ conss)) as [[? ?]|Hn].
    + rewrite decide_True; [done|]. split; [by right|done].
    + destruct (decide (a = u ∧ v ∈ conss)) as [[-> ?]|Hn'].
      * rewrite decide_True; [done|]. split; [left|done].
      * rewrite decide_False; [done|].
        intros [[->|?]%elem_of_cons ?]; [by apply Hn'|by apply Hn].
Qed.

Lemma elem_of_nodes_foldl_ants attr ants conss n G :
  n ∈ nodes (foldl (λ G a, foldl (λ G c, add_edge a c attr G) G conss) G ants)
  ↔ n ∈ nodes G ∨ (n ∈ ants ∧ conss ≠ []) ∨ (n ∈ conss ∧ ants ≠ []).
Proof.
  revert G. induction ants as [|a ants IH]; intros G; simpl.
  - split; [auto|]. intros [?|[[?%elem_of_nil _]|[_ ?]]]; done.
  - rewrite IH, elem_of_nodes_foldl_cons. split.
    + intros [[?|[[Hne ->]|Hin]]|[[? ?]|[? ?]]]; [by left|..].
      * right. left. split; [left|done].
      * right. right. done.
      * right. left. split; [by right|done].
      * right. right. done.
    + intros [?|[[[->|?]%elem_of_cons Hne]|[? _]]]; auto.
Qed.

Lemma get_edge_add_rule_edges u v row G :
  get_edge u v (add_rule_edges selected_metric G row)
  = if decide (produces u v row) then Some (edge_attr selected_metric row)
    else get_edge u v G.
Proof.
  unfold add_rule_edges. rewrite get_edge_foldl_ants.
  unfold produces.
  destruct (decide (u ∈ elements _ ∧ _)) as [[H1 H2]|Hn],
    (decide (u ∈ antecedents row ∧ _)) as [[H3 H4]|Hn']; try done.
  - destruct Hn'. by rewrite <- !elem_of_elements.
  - destruct Hn. by rewrite !elem_of_elements.
Qed.

Lemma elem_of_nodes_add_rule_edges n row G :
  n ∈ nodes (add_rule_edges selected_metric G row)
  ↔ n ∈ nodes G ∨ ∃ m, produces n m row ∨ produces m n row.
Proof.
  unfold add_rule_edges. rewrite elem_of_nodes_foldl_ants.
  unfold produces.
  assert (Hne : ∀ X : gset Item, elements X ≠ [] ↔ ∃ m, m ∈ X).
  { intros X. split.
    - destruct (elements X) as [|m l] eqn:HX; [done|]. intros _.
      exists m. apply elem_of_elements. rewrite HX. left.
    - intros [m Hm%elem_of_elements] HX. rewrite HX in Hm.
      by apply elem_of_nil in Hm. }
  rewrite !Hne, !elem_of_elements. naive_solver.
Qed.

Lemma wf_add_rule_edges row G :
  wf_graph G → wf_graph (add_rule_edges selected_metric G row).
Proof.
  unfold add_rule_edges. revert G.
  induction (elements (antecedents row)) as [|a ants IH]; intros G HG; simpl.
  - done.
  - apply IH. clear IH. revert G HG.
    induction (elements (consequents row)) as [|c conss IH]; intros G HG; simpl.
    + done.
    + by apply IH, wf_add_edge.
Qed.

Lemma last_producer_cons u v row rows :
  last_producer u v (row :: rows)
  = match last_producer u v rows with
    | Some row' => Some row'
    | None => if decide (produces u v row) then Some row else None
    end.
Proof.
  unfold last_producer. rewrite filter_cons.
  destruct (decide (produces u v row)); [|by destruct (last _)].
  destruct (filter (produces u v) rows) as [|r l]; [done|].
  rewrite last_cons. by destruct (last (r :: l)).
Qed.

(** After folding the rows into the graph, the attributes of an edge are
    those of the last row that maps to its ordered pair. *)
Lemma get_edge_foldl_rows u v rows G :
  get_edge u v (foldl (add_rule_edges selected_metric) G rows)
  = match last_producer u v rows with
    | Some row => Some (edge_attr selected_metric row)
    | None => get_edge u v G
    end.
Proof.
  revert G. induction rows as [|row rows IH]; intros G; simpl; [done|].
  rewrite IH, last_producer_cons, get_edge_add_rule_edges.
  destruct (last_producer u v rows); [done|].
  by destruct (decide (produces u v row)).
Qed.

Lemma elem_of_nodes_foldl_rows n rows G :
  n ∈ nodes (foldl (add_rule_edges selected_metric) G rows)
  ↔ n ∈ nodes G ∨ ∃ row m, row ∈ rows ∧ (produces n m row ∨ produces m n row).
Proof.
  revert G. induction rows as [|row rows IH]; intros G; simpl.
  - split; [auto|]. intros [?|[row [m [?%elem_of_nil _]]]]; done.
  - rewrite IH, elem_of_nodes_add_rule_edges. split.
    + intros [[?|[m Hm]]|[row' [m [? Hm]]]]; [by left|..].
      * right. exists row, m. split; [left|done].
      * right. exists row', m. split; [by right|done].
    + intros [?|[row' [m [[->|?]%elem_of_cons Hm]]]]; [auto|eauto|].
      right. eauto.
Qed.

Lemma wf_foldl_rows rows G :
  wf_graph G → wf_graph (foldl (add_rule_edges selected_metric) G rows).
Proof.
  revert G. induction rows as [|row rows IH]; intros G HG; simpl; [done|].
  by apply IH, wf_add_rule_edges.
Qed.

Lemma last_producer_Some u v rows row :
  last_producer u v rows = Some row → row ∈ rows ∧ produces u v row.
Proof.
  unfold last_producer. intros Hl.
  assert (Hin : row ∈ filter (produces u v) rows).
  { apply last_Some in Hl as [l' ->]. apply elem_of_app. right. left. }
  by apply list_elem_of_filter in Hin as [? ?].
Qed.

Lemma last_producer_None u v rows :
  last_producer u v rows = None ↔ ∀ row, row ∈ rows → ¬ produces u v row.
Proof.
  unfold last_producer. rewrite last_None. split.
  - intros Hnil row Hin Hp.
    assert (Hf : row ∈ filter (produces u v) rows)
      by (by apply list_elem_of_filter).
    rewrite Hnil in Hf. by apply elem_of_nil in Hf.
  - intros Hall. destruct (filter (produces u v) rows) as [|r l] eqn:Hf; [done|].
    assert (Hr : r ∈ filter (produces u v) rows) by (rewrite Hf; left).
    apply list_elem_of_filter in Hr as [? ?]. exfalso. eapply Hall; eauto.
Qed.

Lemma last_producer_app u v rows1 row rows2 :
  produces u v row → (∀ row', row' ∈ rows2 → ¬ produces u v row') →
  last_producer u v (rows1 ++ row :: rows2) = Some row.
Proof.
  intros Hp Hnone. unfold last_producer.
  rewrite filter_app, filter_cons, decide_True by done.
  apply last_producer_None in Hnone. unfold last_producer in Hnone.
  apply last_None in Hnone. rewrite Hnone. by rewrite last_snoc.
Qed.
End edge_folding.

(** ** The one-hot encoding *)

Section store.
Implicit Types (df : list Row) (s : gmap (Z * Item) nat).

Lemma pairs_cons r df :
  pairs (r :: df)
  = match group_key r with Some k => k :: pairs df | None => pairs df end.
Proof. reflexivity. Qed.

Lemma group_key_Some r o p :
  group_key r = Some (o, p) ↔ order_id r = Some o ∧ product r = Some p.
Proof.
  unfold group_key. destruct (order_id r), (product r); simpl; naive_solver.
Qed.

Lemma count_row_Some s r key :
  group_key r = Some key →
  count_row s r = <[key := S (default 0%nat (s !! key))]> s.
Proof. unfold count_row. by intros ->. Qed.

Lemma count_row_None s r : group_key r = None → count_row s r = s.
Proof. unfold count_row. by intros ->. Qed.

Lemma groupby_count_foldl s df :
  (∀ k n, s !! k = Some n → (0 < n)%nat) →
  dom (foldl count_row s df) = dom s ∪ list_to_set (pairs df) ∧
  ∀ k n, foldl count_row s df !! k = Some n → (0 < n)%nat.
Proof.
  revert s. induction df as [|r df IH]; intros s Hpos.
  - simpl. split; [set_solver|done].
  - rewrite pairs_cons. cbn [foldl].
    destruct (group_key r) as [key|] eqn:Hkey;
      [rewrite (count_row_Some _ _ _ Hkey)
      |rewrite (count_row_None _ _ Hkey); by apply IH].
    destruct (IH (<[key := S (default 0%nat (s !! key))]> s)) as [Hdom Hpos'].
    + intros k n.
      destruct (decide (key = k)) as [<-|Hne].
      * rewrite lookup_insert_eq. intros [= <-]. lia.
      * rewrite lookup_insert_ne by done. apply Hpos.
    + split; [|done]. rewrite Hdom, dom_insert_L. set_solver.
Qed.

Lemma dom_groupby_count df : dom (groupby_count df) = list_to_set (pairs df).
Proof.
  unfold groupby_count.
  destruct (groupby_count_foldl ∅ df) as [Hdom _]; [by intros k n|].
  rewrite Hdom, dom_empty_L. set_solver.
Qed.

Lemma groupby_count_pos df k n : groupby_count df !! k = Some n → (0 < n)%nat.
Proof.
  unfold groupby_count.
  destruct (groupby_count_foldl ∅ df) as [_ Hpos]; [by intros ? ?|].
  apply Hpos.
Qed.

(** The count of a group only matters through being positive. *)
Lemma presence_bit df k :
  (if bool_decide (0 < default 0%nat (groupby_count df !! k))%nat then 1 else 0)
  = (if bool_decide (k ∈ (list_to_set (pairs df) : gset (Z * Item))) then 1 else 0).
Proof.
  rewrite <- dom_groupby_count.
  destruct (groupby_count df !! k) as [n|] eqn:Hk; simpl.
  - apply groupby_count_pos in Hk as Hn.
    rewrite (bool_decide_eq_true_2 (0 < n)%nat) by done.
    rewrite bool_decide_eq_true_2; [done|]. apply elem_of_dom. eauto.
  - rewrite bool_decide_eq_false_2; [done|]. by apply not_elem_of_dom.
Qed.

Lemma basket_sets_presence df :
  basket_sets df = presence_matrix (list_to_set (pairs df)).
Proof.
  unfold basket_sets, basket, df_map, unstack, presence_matrix. simpl.
  rewrite dom_groupby_count. f_equal.
  rewrite <- !list_fmap_compose. apply list_fmap_ext. intros _ o _. simpl.
  rewrite <- !list_fmap_compose. apply list_fmap_ext. intros _ p _. simpl.
  apply presence_bit.
Qed.
End store.



(** ** Support *)

Section support.
Variable b : DataFrame Z.
Implicit Types (X Y : gset Item).

Lemma length_filter_mono {A} (P1 P2 : A → Prop)
    `{∀ x, Decision (P1 x), ∀ x, Decision (P2 x)} (l : list A) :
  (∀ x, P1 x → P2 x) → (length (filter P1 l) ≤ length (filter P2 l))%nat.
Proof.
  intros Himp. induction l as [|x l IH]; [done|].
  rewrite !filter_cons.
  destruct (decide (P1 x)) as [H1|H1], (decide (P2 x)) as [H2|H2]; simpl;
    [lia|by destruct H2; auto|lia|lia].
Qed.

Lemma support_count_le_N X : (support_count b X ≤ transaction_count b)%nat.
Proof.
  unfold support_count, transaction_count, transactions.
  etrans; [apply length_filter|]. by rewrite length_fmap.
Qed.

Lemma support_count_anti X Y :
  X ⊆ Y → (support_count b Y ≤ support_count b X)%nat.
Proof.
  intros HXY. unfold support_count. apply length_filter_mono.
  intros t Ht. set_solver.
Qed.

Lemma Qdiv_nat_mono (c1 c2 n : nat) :
  (c1 ≤ c2)%nat →
  (inject_Z (Z.of_nat c1) / inject_Z (Z.of_nat n)
   <= inject_Z (Z.of_nat c2) / inject_Z (Z.of_nat n))%Q.
Proof.
  intros Hle. unfold Qdiv. apply Qmult_le_compat_r.
  - rewrite <- Zle_Qle. lia.
  - apply Qinv_le_0_compat. replace 0%Q with (inject_Z 0) by done.
    rewrite <- Zle_Qle. lia.
Qed.

Lemma itemset_support_anti X Y :
  X ⊆ Y → (itemset_support b Y <= itemset_support b X)%Q.
Proof.
  intros HXY. unfold itemset_support. rewrite !Qred_correct.
  by apply Qdiv_nat_mono, support_count_anti.
Qed.

Lemma itemset_support_nonneg X : (0 <= itemset_support b X)%Q.
Proof.
  unfold itemset_support. rewrite Qred_correct.
  apply Qle_trans with (inject_Z (Z.of_nat 0) / inject_Z (Z.of_nat (transaction_count b)))%Q.
  - unfold Qdiv. rewrite Qmult_0_l. apply Qle_refl.
  - apply Qdiv_nat_mono. lia.
Qed.

Lemma itemset_support_le_1 X : (itemset_support b X <= 1)%Q.
Proof.
  unfold itemset_support. rewrite Qred_correct.
  pose proof (support_count_le_N X) as Hle.
  destruct (transaction_count b) as [|n] eqn:HN.
  - unfold Qdiv. simpl. rewrite Qmult_0_r. done.
  - apply Qle_shift_div_r.
    + replace 0%Q with (inject_Z 0) by done. rewrite <- Zlt_Qlt. lia.
    + rewrite Qmult_1_l, <- Zle_Qle. lia.
Qed.
End support.

(** ** The level-wise search *)

Section mining.
Import Mlxtend.
Variable b : DataFrame Z.
Variable min_support : Q.
Implicit Types (X Y A B C : gset Item) (L : list (gset Item)) (k j : nat).

#[local] Abbreviation Freq := (frequent_of_size b min_support).

Lemma frequent_anti X Y :
  X ⊆ Y → frequent b min_support Y → frequent b min_support X.
Proof.
  unfold frequent. rewrite !Qle_bool_iff. intros HXY HY.
  eapply Qle_trans; [apply HY|]. by apply itemset_support_anti.
Qed.

Lemma Freq_subseteq k X Y :
  Freq k Y → X ⊆ Y → Freq (size X) X.
Proof.
  intros (_ & Hcols & Hf) HXY. split_and!; [done|set_solver|].
  by eapply frequent_anti.
Qed.

Lemma subset_of_size X k :
  (k ≤ size X)%nat → ∃ Y, Y ⊆ X ∧ size Y = k.
Proof.
  induction k as [|k IH]; intros Hk.
  - exists ∅. split; [set_solver|apply size_empty].
  - destruct IH as (Y & HY & Hsz); [lia|].
    assert (Hpos : (0 < size (X ∖ Y))%nat)
      by (rewrite size_difference by done; lia).
    apply size_pos_elem_of in Hpos as [x Hx].
    exists ({[x]} ∪ Y). split; [set_solver|].
    rewrite size_union by set_solver. rewrite size_singleton. lia.
Qed.

Lemma Freq_smaller k j X :
  Freq k X → (j ≤ k)%nat → ∃ Y, Freq j Y.
Proof.
  intros HX Hj. destruct (subset_of_size X j) as (Y & HY & Hsz).
  { destruct HX as (-> & _). done. }
  exists Y. rewrite <- Hsz. by eapply Freq_subseteq.
Qed.

Lemma elem_of_level1 X : X ∈ level1 b min_support ↔ Freq 1 X.
Proof.
  unfold level1, frequent_of_size.
  rewrite list_elem_of_filter, list_elem_of_fmap. split.
  - intros (Hf & c & -> & Hc). rewrite elem_of_remove_dups in Hc.
    split_and!; [apply size_singleton| |done].
    apply singleton_subseteq_l. by apply elem_of_list_to_set.
  - intros (Hsz & Hcols & Hf). split; [done|].
    apply size_1_elem_of in Hsz as [c Hc]. apply leibniz_equiv in Hc.
    exists c. split; [done|]. rewrite elem_of_remove_dups.
    apply (elem_of_list_to_set (C:=gset Item)). set_solver.
Qed.

Lemma elem_of_join k L X :
  X ∈ join k L
  ↔ ∃ A B, A ∈ L ∧ B ∈ L ∧ size (A ∩ B) = (k - 2)%nat ∧ X = A ∪ B.
Proof.
  unfold join. rewrite elem_of_remove_dups, list_elem_of_bind. split.
  - intros (A & HX & HA). apply list_elem_of_bind in HX as (B & HX & HB).
    destruct (decide _) as [Hsz|]; [|by apply elem_of_nil in HX].
    apply list_elem_of_singleton in HX. eauto 10.
  - intros (A & B & HA & HB & Hsz & ->). exists A. split; [|done].
    apply list_elem_of_bind. exists B. split; [|done].
    rewrite decide_True by done. by apply list_elem_of_singleton.
Qed.

Lemma size_remove X x : x ∈ X → size (X ∖ {[x]}) = (size X - 1)%nat.
Proof.
  intros Hx. rewrite size_difference by set_solver. by rewrite size_singleton.
Qed.

Lemma join_size_columns j L X :
  (∀ Y, Y ∈ L ↔ Freq (S j) Y) →
  X ∈ join (S (S j)) L →
  size X = S (S j) ∧ X ⊆ list_to_set (columns b).
Proof.
  intros HL (A & B & HA & HB & Hsz & ->)%elem_of_join.
  apply HL in HA as (HszA & HcA & _). apply HL in HB as (HszB & HcB & _).
  split; [|set_solver].
  rewrite size_union_alt, size_difference_alt.
  replace (B ∩ A) with (A ∩ B) by set_solver.
  simpl in Hsz. lia.
Qed.

(** One step of the search: from the frequent itemsets of size [j+1] to
    those of size [j+2]. *)
Lemma elem_of_next_level j L X :
  (∀ Y, Y ∈ L ↔ Freq (S j) Y) →
  X ∈ next_level b min_support (S (S j)) L ↔ Freq (S (S j)) X.
Proof.
  intros HL. unfold next_level, prune.
  rewrite !list_elem_of_filter, elem_of_join. split.
  - intros (Hf & _ & A & B & HA & HB & Hsz & ->).
    apply HL in HA as (HszA & HcA & _). apply HL in HB as (HszB & HcB & _).
    split_and!; [|set_solver|done].
    rewrite size_union_alt, size_difference_alt.
    replace (B ∩ A) with (A ∩ B) by set_solver.
    simpl in Hsz. lia.
  - intros (Hsz & Hcols & Hf).
    assert (Hsub : ∀ x, x ∈ X → X ∖ {[x]} ∈ L).
    { intros x Hx. apply HL.
      replace (S j) with (size (X ∖ {[x]})) by (rewrite size_remove by done; lia).
      eapply Freq_subseteq; [by split_and!|set_solver]. }
    split; [done|]. split; [exact Hsub|].
    destruct (size_pos_elem_of X) as [x Hx]; [lia|].
    destruct (size_pos_elem_of (X ∖ {[x]})) as [y Hy];
      [rewrite size_remove by done; lia|].
    exists (X ∖ {[x]}), (X ∖ {[y]}). split_and!.
    + by apply Hsub.
    + apply Hsub. set_solver.
    + replace ((X ∖ {[x]}) ∩ (X ∖ {[y]})) with ((X ∖ {[x]}) ∖ {[y]}) by set_solver.
      rewrite size_remove by done. rewrite size_remove by done. simpl. lia.
    + apply set_eq. intros z. rewrite elem_of_union, !elem_of_difference,
        !elem_of_singleton.
      split; [|tauto]. intros Hz.
      destruct (decide (z = x)) as [->|]; [|by left].
      right. split; [done|]. set_solver.
Qed.

Lemma elem_of_levels_from budget j L X :
  (∀ Y, Y ∈ L ↔ Freq (S j) Y) →
  X ∈ concat (levels_from b min_support budget (S (S j)) L)
  ↔ ∃ i, (S (S j) ≤ i < S (S j) + budget)%nat ∧ Freq i X.
Proof.
  revert j L. induction budget as [|budget IH]; intros j L HL; simpl.
  - split; [by intros ?%elem_of_nil|]. intros (i & ? & _). lia.
  - pose proof (elem_of_next_level j L) as Hnext.
    destruct (next_level b min_support (S (S j)) L) as [|Y0 Lk] eqn:Hk; simpl.
    + split; [by intros ?%elem_of_nil|]. intros (i & Hi & HX). exfalso.
      destruct (Freq_smaller i (S (S j)) X) as [Y HY]; [done|lia|].
      apply Hnext in HY; [|done]. by apply elem_of_nil in HY.
    + change (Y0 :: Lk ++ concat (levels_from b min_support budget (S (S (S j))) (Y0 :: Lk)))
        with ((Y0 :: Lk) ++ concat (levels_from b min_support budget (S (S (S j))) (Y0 :: Lk))).
      rewrite elem_of_app, (IH (S j) (Y0 :: Lk)) by (intros Y; by apply Hnext).
      rewrite (Hnext X HL). split.
      * intros [HX|(i & Hi & HX)]; [exists (S (S j))|exists i]; split; (lia || done).
      * intros (i & Hi & HX). destruct (decide (i = S (S j))) as [->|]; [by left|].
        right. exists i. split; [lia|done].
Qed.

(** The search returns exactly the non-empty frequent itemsets over the
    columns of the matrix. *)
Lemma elem_of_mine X :
  X ∈ mine b min_support
  ↔ X ≠ ∅ ∧ X ⊆ list_to_set (columns b) ∧ frequent b min_support X.
Proof.
  assert (Hn : length (remove_dups (columns b))
             = size (list_to_set (columns b) : gset Item)).
  { rewrite <- (size_list_to_set (C:=gset Item)) by apply NoDup_remove_dups.
    f_equal. apply set_eq. intros x.
    by rewrite !elem_of_list_to_set, elem_of_remove_dups. }
  assert (Hchar : (∃ i, (1 ≤ i)%nat ∧ Freq i X)
            ↔ X ≠ ∅ ∧ X ⊆ list_to_set (columns b) ∧ frequent b min_support X).
  { split.
    - intros (i & Hi & Hsz & ? & ?). split_and!; [|done..].
      intros ->. rewrite size_empty in Hsz. lia.
    - intros (Hne & ? & ?). exists (size X). split; [|by split_and!].
      assert (size X ≠ 0%nat); [|lia].
      apply size_non_empty_iff. by intros ?%leibniz_equiv. }
  rewrite <- Hchar. unfold mine.
  pose proof elem_of_level1 as H1.
  destruct (level1 b min_support) as [|Y0 L1] eqn:HL1.
  - split; [by intros ?%elem_of_nil|]. intros (i & Hi & HX). exfalso.
    destruct (Freq_smaller i 1 X) as [Y HY]; [done|lia|].
    apply H1 in HY. by apply elem_of_nil in HY.
  - rewrite elem_of_app, (elem_of_levels_from _ 0 (Y0 :: L1)) by done.
    rewrite H1. split.
    + intros [HX|(i & Hi & HX)]; [exists 1%nat|exists i]; split; (lia || done).
    + intros (i & Hi & HX). destruct (decide (i = 1%nat)) as [->|]; [by left|].
      right. exists i. split; [|done]. split; [lia|].
      destruct HX as (Hsz & Hc & _). apply subseteq_size in Hc. lia.
Qed.
End mining.

(** ** Lists of results *)

Lemma mapM_Ok {A B} (f : A → result B) (l : list A) (k : list B) :
  mapM f l = Ok k ↔ Forall2 (λ x y, f x = Ok y) l k.
Proof.
  revert k. induction l as [|x l IH]; intros k; simpl.
  - split.
    + intros [= <-]. constructor.
    + by intros ->%Forall2_nil_inv_l.
  - split.
    + destruct (f x) as [y|e] eqn:Hx; simpl; [|done].
      destruct (mapM f l) as [k'|e] eqn:Hl; simpl; [|done].
      intros [= <-]. constructor; [done|]. by apply IH.
    + intros (y & k' & Hx & Hl & ->)%Forall2_cons_inv_l.
      apply IH in Hl. by rewrite Hx, Hl.
Qed.

Lemma mapM_Ok_total {A B} (f : A → result B) (l : list A) :
  (∀ x, x ∈ l → ∃ y, f x = Ok y) → ∃ k, mapM f l = Ok k.
Proof.
  induction l as [|x l IH]; intros Hall; simpl; [by eexists|].
  destruct (Hall x) as [y Hy]; [left|].
  destruct IH as [k Hk]; [intros z Hz; apply Hall; by right|].
  exists (y :: k). by rewrite Hy, Hk.
Qed.

Lemma mapM_Ok_elem_of {A B} (f : A → result B) (l : list A) (k : list B) y :
  mapM f l = Ok k → y ∈ k ↔ ∃ x, x ∈ l ∧ f x = Ok y.
Proof.
  intros HF%mapM_Ok. induction HF as [|x y' l k Hxy HF IH].
  - split; [by intros ?%elem_of_nil|by intros (x & ?%elem_of_nil & _)].
  - rewrite elem_of_cons, IH. split.
    + intros [->|(x' & ? & ?)]; [exists x; split; [left|done]|].
      exists x'. split; [by right|done].
    + intros (x' & [->|?]%elem_of_cons & Hx'); [left; congruence|].
      right. eauto.
Qed.

(** ** The rule generator *)

Section sublists.
Implicit Types (X Y : gset Item) (l : list Item).

Lemma sublists_subseteq l l' :
  l' ∈ sublists l → (list_to_set l' : gset Item) ⊆ list_to_set l.
Proof.
  revert l'. induction l as [|x l IH]; intros l'; simpl.
  - intros ->%list_elem_of_singleton. done.
  - rewrite elem_of_app, list_elem_of_fmap.
    intros [(l0 & -> & Hl0)|Hl'].
    + simpl. apply IH in Hl0. set_solver.
    + apply IH in Hl'. set_solver.
Qed.

Lemma sublists_complete l Y :
  Y ⊆ list_to_set l → ∃ l', l' ∈ sublists l ∧ list_to_set l' = Y.
Proof.
  revert Y. induction l as [|x l IH]; intros Y HY; simpl in *.
  - exists []. split; [by apply list_elem_of_singleton|]. set_solver.
  - destruct (IH (Y ∖ {[x]})) as (l0 & Hl0 & Hset); [set_solver|].
    destruct (decide (x ∈ Y)) as [Hx|Hx].
    + exists (x :: l0). split.
      * apply elem_of_app. left. apply list_elem_of_fmap. eauto.
      * simpl. rewrite Hset. apply set_eq. intros z.
        rewrite elem_of_union, elem_of_difference, elem_of_singleton.
        destruct (decide (z = x)) as [->|]; naive_solver.
    + exists l0. split; [apply elem_of_app; by right|].
      rewrite Hset. set_solver.
Qed.

Lemma elem_of_bipartitions X A C :
  (A, C) ∈ Mlxtend.bipartitions X
  ↔ A ≠ ∅ ∧ A ≠ X ∧ A ⊆ X ∧ C = X ∖ A.
Proof.
  unfold Mlxtend.bipartitions. rewrite list_elem_of_fmap. split.
  - intros (A' & [= <- ->] & HA). apply list_elem_of_filter in HA as [[? ?] HA].
    apply list_elem_of_fmap in HA as (l' & -> & Hl').
    apply sublists_subseteq in Hl'. rewrite list_to_set_elements_L in Hl'.
    done.
  - intros (Hne & HneX & Hsub & ->). exists A. split; [done|].
    apply list_elem_of_filter. split; [done|].
    destruct (sublists_complete (elements X) A) as (l' & Hl' & <-).
    { by rewrite list_to_set_elements_L. }
    apply list_elem_of_fmap. eauto.
Qed.

Lemma bipartitions_partition X A C :
  (A, C) ∈ Mlxtend.bipartitions X →
  A ≠ ∅ ∧ C ≠ ∅ ∧ A ∩ C = ∅ ∧ A ∪ C = X.
Proof.
  intros (Hne & HneX & Hsub & ->)%elem_of_bipartitions. split_and!.
  - done.
  - intros Hemp. apply HneX. apply set_eq. intros z. split; [set_solver|].
    intros Hz. destruct (decide (z ∈ A)); [done|]. set_solver.
  - set_solver.
  - apply set_eq. intros z. rewrite elem_of_union, elem_of_difference.
    destruct (decide (z ∈ A)); set_solver.
Qed.
End sublists.

Section generator.
Import Mlxtend.
Variable b : DataFrame Z.
Implicit Types (X Y A C : gset Item) (L : list (gset Item)) (r : Rule).

Lemma apriori_Ok min_support fi :
  apriori b min_support = Ok fi
  ↔ transaction_count b ≠ 0%nat
    ∧ (0 < min_support)%Q ∧ (min_support <= 1)%Q
    ∧ fi = table_row b <$> mine b min_support.
Proof.
  unfold apriori, transaction_store.
  destruct (decide (transaction_count b = 0%nat)) as [HN|HN]; simpl.
  { split; [done|]. by intros (? & _). }
  destruct (Qle_bool min_support 0) eqn:H0; simpl.
  - apply Qle_bool_iff in H0. split; [done|].
    intros (_ & Hlt & _). exfalso. by apply (Qlt_not_le _ _ Hlt).
  - destruct (Qle_bool min_support 1) eqn:H1.
    + apply Qle_bool_iff in H1. split.
      * intros [= <-]. split_and!; [done| |done..].
        apply Qnot_le_lt. rewrite <- Qle_bool_iff. congruence.
      * by intros (_ & _ & _ & ->).
    + split; [done|]. intros (_ & _ & Hle & _).
      apply Qle_bool_iff in Hle. congruence.
Qed.


Lemma elem_of_apriori min_support fi f :
  apriori b min_support = Ok fi →
  f ∈ fi ↔ f = table_row b (itemsets f) ∧ itemsets f ≠ ∅
           ∧ itemsets f ⊆ list_to_set (columns b)
           ∧ frequent b min_support (itemsets f).
Proof.
  intros (_ & _ & _ & ->)%apriori_Ok. rewrite list_elem_of_fmap. split.
  - intros (X & -> & HX%elem_of_mine). done.
  - intros (Hf & HX). exists (itemsets f). split; [done|].
    by apply elem_of_mine.
Qed.

Lemma lookup_support_table L X :
  lookup_support (table_row b <$> L) X
  = if decide (X ∈ L) then Some (itemset_support b X) else None.
Proof.
  unfold lookup_support. induction L as [|Y L IH]; [done|].
  rewrite fmap_cons, filter_cons. simpl.
  destruct (decide (Y = X)) as [->|Hne]; simpl.
  - rewrite decide_True; [done|left].
  - rewrite IH. destruct (decide (X ∈ L)).
    + rewrite decide_True; [done|by right].
    + rewrite decide_False; [done|].
      intros [?|?]%elem_of_cons; [congruence|done].
Qed.

Lemma elem_of_rule_candidates L f A C :
  (f, (A, C)) ∈ rule_candidates (table_row b <$> L)
  ↔ ∃ X, f = table_row b X ∧ X ∈ L ∧ (2 ≤ size X)%nat
       ∧ (A, C) ∈ bipartitions X.
Proof.
  unfold rule_candidates. rewrite list_elem_of_bind. split.
  - intros (f' & Hin & Hf'). apply list_elem_of_fmap in Hin as (ac & [= <- <-] & Hac).
    apply list_elem_of_filter in Hf' as [Hsz Hf'].
    apply list_elem_of_fmap in Hf' as (X & -> & HX). eauto.
  - intros (X & -> & HX & Hsz & Hac). exists (table_row b X). split.
    + apply list_elem_of_fmap. by exists (A, C).
    + apply list_elem_of_filter. split; [done|].
      apply list_elem_of_fmap. eauto.
Qed.

(** On the table returned by mining, every candidate is scored, with the
    metrics computed from the transaction store. *)
Lemma score_rule_mined min_support f A C :
  (0 < min_support)%Q →
  (f, (A, C)) ∈ rule_candidates (table_row b <$> mine b min_support) →
  score_rule (table_row b <$> mine b min_support) (f, (A, C))
  = Ok (rule_metrics b A C).
Proof.
  intros Hpos (X & -> & HX & Hsz & Hac)%elem_of_rule_candidates.
  destruct (bipartitions_partition _ _ _ Hac) as (HA & HC & Hdisj & Hun).
  apply elem_of_mine in HX as (_ & Hcols & Hf).
  assert (HAm : A ∈ mine b min_support).
  { apply elem_of_mine. split_and!; [done|set_solver|].
    eapply frequent_anti; [|done]. set_solver. }
  assert (HCm : C ∈ mine b min_support).
  { apply elem_of_mine. split_and!; [done|set_solver|].
    eapply frequent_anti; [|done]. set_solver. }
  unfold score_rule. rewrite !lookup_support_table.
  rewrite !decide_True by done.
  apply elem_of_mine in HAm as (_ & _ & HfA). unfold frequent in HfA.
  apply Qle_bool_iff in HfA.
  destruct (Qle_bool (itemset_support b A) 0) eqn:H0.
  - apply Qle_bool_iff in H0. exfalso.
    apply (Qlt_not_le _ _ Hpos). by eapply Qle_trans.
  - unfold rule_metrics, table_row. simpl. by rewrite Hun.
Qed.

Lemma association_rules_mined min_support min_threshold fi :
  apriori b min_support = Ok fi →
  ∃ scored,
    mapM (score_rule fi) (rule_candidates fi) = Ok scored ∧
    association_rules fi min_threshold
      = Ok (rows_ge confidence min_threshold scored) ∧
    ∀ r, r ∈ scored ↔
      ∃ X, X ∈ mine b min_support ∧ (2 ≤ size X)%nat
         ∧ (antecedents r, consequents r) ∈ bipartitions X
         ∧ r = rule_metrics b (antecedents r) (consequents r).
Proof.
  intros (_ & Hpos & _ & ->)%apriori_Ok.
  destruct (mapM_Ok_total (score_rule (table_row b <$> mine b min_support))
              (rule_candidates (table_row b <$> mine b min_support)))
    as [scored Hscored].
  { intros [f [A C]] Hin. eexists. by apply score_rule_mined. }
  exists scored. split; [done|]. split.
  { unfold association_rules. by rewrite Hscored. }
  intros r. rewrite (mapM_Ok_elem_of _ _ _ _ Hscored). split.
  - intros ([f [A C]] & Hin & Hr).
    rewrite score_rule_mined in Hr by done. injection Hr as <-.
    apply elem_of_rule_candidates in Hin as (X & -> & HX & Hsz & Hac).
    exists X. done.
  - intros (X & HX & Hsz & Hac & Hr).
    exists (table_row b X, (antecedents r, consequents r)).
    assert (Hin : (table_row b X, (antecedents r, consequents r))
              ∈ rule_candidates (table_row b <$> mine b min_support)).
    { apply elem_of_rule_candidates. eauto. }
    split; [done|]. rewrite score_rule_mined by done. by rewrite <- Hr.
Qed.
End generator.

(** ** Writing and reading CSV text *)

Section csv.















(** *** The text of a number *)














Section round_trip.
Variable further_columns : list string.



End round_trip.
End csv.

(** ** Further facts about the graph stage *)

Lemma elem_of_nodes_draw_network rules selected_metric min_val n :
  n ∈ nodes (draw_network rules selected_metric min_val)
  ↔ ∃ row m, row ∈ rows_ge (column selected_metric) min_val rules
       ∧ (produces n m row ∨ produces m n row).
Proof.
  unfold draw_network. rewrite elem_of_nodes_foldl_rows. split.
  - intros [?%elem_of_nil|?]; done.
  - intros ?. by right.
Qed.

Lemma rows_ge_app col v rules1 rules2 :
  rows_ge col v (rules1 ++ rules2) = rows_ge col v rules1 ++ rows_ge col v rules2.
Proof. unfold rows_ge. apply filter_app. Qed.

Lemma last_producer_app_r u v rows1 rows2 :
  last_producer u v (rows1 ++ rows2)
  = match last_producer u v rows2 with
    | Some row => Some row
    | None => last_producer u v rows1
    end.
Proof.
  unfold last_producer. rewrite filter_app.
  destruct (filter (produces u v) rows2) as [|r l] using rev_ind.
  - by rewrite app_nil_r.
  - rewrite app_assoc, !last_snoc. done.
Qed.

Lemma foldl_Qmax'_ge x s :
  (x <= foldl Qmax' x s)%Q ∧ ∀ y, y ∈ s → (y <= foldl Qmax' x s)%Q.
Proof.
  revert x. induction s as [|z s IH]; intros x; simpl.
  - split; [apply Qle_refl|]. by intros y ?%elem_of_nil.
  - destruct (IH (Qmax' x z)) as [H1 H2].
    assert (Hm : (x <= Qmax' x z)%Q ∧ (z <= Qmax' x z)%Q).
    { unfold Qmax'. destruct (Qle_bool x z) eqn:Hle.
      - split; [by apply Qle_bool_iff|apply Qle_refl].
      - split; [apply Qle_refl|]. apply Qlt_le_weak, Qnot_le_lt.
        rewrite <- Qle_bool_iff. congruence. }
    destruct Hm as [Hx Hz]. split; [by eapply Qle_trans|].
    intros y [->|?]%elem_of_cons; [by eapply Qle_trans|auto].
Qed.

Lemma foldl_Qmax'_elem x s : foldl Qmax' x s ∈ x :: s.
Proof.
  revert x. induction s as [|z s IH]; intros x; simpl; [left|].
  specialize (IH (Qmax' x z)). unfold Qmax' in *.
  destruct (Qle_bool x z).
  - right. done.
  - apply elem_of_cons in IH as [->|?]; [left|right; by right].
Qed.

Lemma series_max_spec s m :
  series_max s = Some m → m ∈ s ∧ ∀ y, y ∈ s → (y <= m)%Q.
Proof.
  destruct s as [|x s]; simpl; [done|]. intros [= <-].
  split; [apply foldl_Qmax'_elem|].
  destruct (foldl_Qmax'_ge x s) as [H1 H2].
  intros y [->|?]%elem_of_cons; auto.
Qed.

(** ** Further facts about the one-hot encoding *)

Section store_extra.
Implicit Types (df : list Row) (s : gmap (Z * Item) nat) (k : Z * Item).

Lemma key_eq_dec r o p :
  (order_id r, product r) = (Some o, Some p) ↔ group_key r = Some (o, p).
Proof.
  rewrite group_key_Some. split; [by intros [= -> ->]|by intros [-> ->]].
Qed.

Lemma groupby_count_foldl_count s df o p :
  default 0%nat (foldl count_row s df !! (o, p))
  = (default 0%nat (s !! (o, p))
     + length (filter (λ r, (order_id r, product r) = (Some o, Some p)) df))%nat.
Proof.
  revert s. induction df as [|r df IH]; intros s; simpl; [lia|].
  rewrite IH, filter_cons.
  destruct (decide ((order_id r, product r) = (Some o, Some p))) as [Heq|Hne].
  - pose proof (proj1 (key_eq_dec _ _ _) Heq) as Hkey.
    rewrite (count_row_Some _ _ _ Hkey).
    rewrite lookup_insert_eq, length_cons. cbn [default from_option].
    rewrite Nat.add_succ_r. reflexivity.
  - destruct (group_key r) as [[o' p']|] eqn:Hkey.
    + rewrite (count_row_Some _ _ _ Hkey).
      rewrite lookup_insert_ne; [done|].
      intros [= -> ->]. by apply Hne, key_eq_dec.
    + by rewrite (count_row_None _ _ Hkey).
Qed.

Lemma groupby_count_count df o p :
  default 0%nat (groupby_count df !! (o, p))
  = length (filter (λ r, (order_id r, product r) = (Some o, Some p)) df).
Proof.
  unfold groupby_count. rewrite groupby_count_foldl_count.
  by rewrite lookup_empty.
Qed.

(** The lines of one group are the occurrences of its key. *)
Lemma count_pairs df o p :
  length (filter (λ r, (order_id r, product r) = (Some o, Some p)) df)
  = length (filter (λ k, k = (o, p)) (pairs df)).
Proof.
  induction df as [|r df IH]; [done|].
  rewrite pairs_cons, filter_cons.
  destruct (decide ((order_id r, product r) = (Some o, Some p))) as [Heq|Hne].
  - rewrite (proj1 (key_eq_dec _ _ _) Heq).
    rewrite filter_cons, decide_True by done. simpl. by rewrite IH.
  - destruct (group_key r) as [[o' p']|] eqn:Hkey; [|done].
    rewrite filter_cons, decide_False; [done|].
    intros [= -> ->]. by apply Hne, key_eq_dec.
Qed.

Lemma lookup_cells {A} (f : Z → Item → A) (idx : list Z) (cols : list Item)
    i j o p :
  idx !! i = Some o → cols !! j = Some p →
  (((λ o, (λ p, f o p) <$> cols) <$> idx) !! i ≫= (.!! j)) = Some (f o p).
Proof.
  intros Hi Hj. rewrite list_lookup_fmap, Hi. simpl.
  by rewrite list_lookup_fmap, Hj.
Qed.

Lemma basket_values df :
  values (basket df)
  = (λ o, (λ p, length (filter (λ r, (order_id r, product r)
                                     = (Some o, Some p)) df))
            <$> columns (basket df)) <$> index (basket df).
Proof.
  unfold basket, df_map, unstack. simpl.
  rewrite <- list_fmap_compose. apply list_fmap_ext. intros _ o _. simpl.
  rewrite <- list_fmap_compose. apply list_fmap_ext. intros _ p _. simpl.
  apply groupby_count_count.
Qed.

Lemma basket_sets_labels df :
  index (basket_sets df) = index (basket df)
  ∧ columns (basket_sets df) = columns (basket df).
Proof. done. Qed.

Lemma index_presence (present : gset (Z * Item)) :
  Sorted Z.le (index (presence_matrix present))
  ∧ NoDup (index (presence_matrix present))
  ∧ ∀ o, o ∈ index (presence_matrix present) ↔ ∃ p, (o, p) ∈ present.
Proof.
  unfold presence_matrix. simpl. split_and!.
  - apply Sorted_merge_sort. apply _.
  - rewrite merge_sort_Permutation. apply NoDup_elements.
  - intros o. rewrite merge_sort_Permutation, elem_of_elements, elem_of_map.
    split.
    + intros ([o' p] & -> & Hin). eauto.
    + intros [p Hin]. by exists (o, p).
Qed.

Lemma columns_presence (present : gset (Z * Item)) :
  Sorted String.le (columns (presence_matrix present))
  ∧ NoDup (columns (presence_matrix present))
  ∧ ∀ p, p ∈ columns (presence_matrix present) ↔ ∃ o, (o, p) ∈ present.
Proof.
  unfold presence_matrix. simpl. split_and!.
  - apply Sorted_merge_sort. apply _.
  - rewrite merge_sort_Permutation. apply NoDup_elements.
  - intros p. rewrite merge_sort_Permutation, elem_of_elements, elem_of_map.
    split.
    + intros ([o p'] & -> & Hin). eauto.
    + intros [o Hin]. by exists (o, p).
Qed.

Lemma elem_of_pairs df o p :
  (o, p) ∈ (list_to_set (pairs df) : gset (Z * Item))
  ↔ ∃ r, r ∈ df ∧ order_id r = Some o ∧ product r = Some p.
Proof.
  rewrite elem_of_list_to_set. unfold pairs. rewrite list_elem_of_omap.
  by setoid_rewrite group_key_Some.
Qed.

Lemma elem_of_pairs_list df o p :
  (o, p) ∈ pairs df
  ↔ ∃ r, r ∈ df ∧ order_id r = Some o ∧ product r = Some p.
Proof. rewrite <- elem_of_pairs. by rewrite elem_of_list_to_set. Qed.

(** The pairs are as many as the lines that have both fields. *)
Lemma length_pairs df :
  length (pairs df)
  = length (filter (λ r, is_Some (order_id r) ∧ is_Some (product r)) df).
Proof.
  induction df as [|r df IH]; [done|].
  rewrite pairs_cons, filter_cons. unfold group_key.
  destruct (decide (is_Some (order_id r) ∧ is_Some (product r)))
    as [[[o Ho] [p Hp]]|Hn].
  - rewrite Ho, Hp. simpl. by rewrite IH.
  - destruct (order_id r) as [o|], (product r) as [p|]; simpl; try done.
    exfalso. apply Hn. split; eauto.
Qed.

Lemma sum_list_with_add {A} (f g : A → nat) (l : list A) :
  sum_list_with (λ x, f x + g x)%nat l
  = (sum_list_with f l + sum_list_with g l)%nat.
Proof. induction l as [|x l IH]; simpl; [done|]. rewrite IH. lia. Qed.

Lemma sum_list_with_ext_in {A} (f g : A → nat) (l : list A) :
  (∀ x, x ∈ l → f x = g x) → sum_list_with f l = sum_list_with g l.
Proof.
  induction l as [|x l IH]; intros Hfg; simpl; [done|].
  rewrite Hfg by left. rewrite IH; [done|]. intros y Hy. apply Hfg. by right.
Qed.

Lemma sum_list_with_indicator {A} `{EqDecision A} (x : A) (l : list A) :
  NoDup l →
  sum_list_with (λ y, if decide (x = y) then 1 else 0)%nat l
  = if decide (x ∈ l) then 1%nat else 0%nat.
Proof.
  induction 1 as [|y l Hy Hl IH]; simpl; [done|].
  rewrite IH. destruct (decide (x = y)) as [->|Hne].
  - rewrite decide_False by done. rewrite decide_True; [done|left].
  - destruct (decide (x ∈ l)).
    + rewrite decide_True; [done|by right].
    + rewrite decide_False; [done|].
      intros [?|?]%elem_of_cons; done.
Qed.

Lemma sum_list_with_zero {A} (l : list A) :
  sum_list_with (λ _, 0%nat) l = 0%nat.
Proof. induction l as [|x l IH]; simpl; [done|lia]. Qed.

Lemma sum_cells (f : Z → Item → nat) (idx : list Z) (cols : list Item) :
  sum_list (concat ((λ o, (λ p, f o p) <$> cols) <$> idx))
  = sum_list_with (λ o, sum_list_with (λ p, f o p) cols) idx.
Proof.
  induction idx as [|o idx IH]; [done|].
  rewrite fmap_cons. cbn [concat sum_list_with].
  rewrite sum_list_with_app, IH. f_equal.
  clear. induction cols as [|p cols IHc]; [done|].
  rewrite fmap_cons. cbn [sum_list_with]. by rewrite IHc.
Qed.

Lemma sum_counts (idx : list Z) (cols : list Item) (ks : list (Z * Item)) :
  NoDup idx → NoDup cols →
  (∀ k, k ∈ ks → k.1 ∈ idx ∧ k.2 ∈ cols) →
  sum_list_with (λ o, sum_list_with (λ p,
      length (filter (λ k, k = (o, p)) ks)) cols) idx
  = length ks.
Proof.
  intros Hidx Hcols. induction ks as [|[o' p'] ks IH]; intros Hin; simpl.
  - rewrite (sum_list_with_ext_in _ (λ _, 0%nat)).
    + apply sum_list_with_zero.
    + intros o _. apply sum_list_with_zero.
  - destruct (Hin (o', p')) as [Ho Hp]; [left|]. simpl in Ho, Hp.
    rewrite <- IH by (intros k' Hk'; apply Hin; by right).
    rewrite (sum_list_with_ext_in _
      (λ o, (if decide (o' = o) then 1 else 0)
            + sum_list_with (λ p,
                length (filter (λ k, k = (o, p)) ks)) cols)%nat).
    + rewrite sum_list_with_add, sum_list_with_indicator by done.
      by rewrite decide_True.
    + intros o _.
      rewrite (sum_list_with_ext_in _
        (λ p, (if decide (o' = o ∧ p' = p) then 1 else 0)
              + length (filter (λ k, k = (o, p)) ks))%nat).
      * rewrite sum_list_with_add. f_equal.
        destruct (decide (o' = o)) as [Heq|Hne].
        -- rewrite (sum_list_with_ext_in _
             (λ p, if decide (p' = p) then 1 else 0)%nat).
           ++ rewrite sum_list_with_indicator by done. by rewrite decide_True.
           ++ intros p _. destruct (decide (p' = p)).
              ** by rewrite decide_True.
              ** rewrite decide_False; [done|]. by intros [_ ?].
        -- rewrite (sum_list_with_ext_in _ (λ _, 0%nat)).
           ++ apply sum_list_with_zero.
           ++ intros p _. rewrite decide_False; [done|]. by intros [? _].
      * intros p _. rewrite filter_cons.
        destruct (decide ((o', p') = (o, p))) as [[= Ho' Hp']|Hne].
        -- rewrite decide_True by done. simpl. lia.
        -- rewrite decide_False; [simpl; lia|].
           intros [<- <-]. done.
Qed.

Lemma basket_labels df :
  NoDup (index (basket df))
  ∧ (∀ o, o ∈ index (basket df) ↔ ∃ p, (o, p) ∈ pairs df)
  ∧ NoDup (columns (basket df))
  ∧ (∀ p, p ∈ columns (basket df) ↔ ∃ o, (o, p) ∈ pairs df).
Proof.
  destruct (basket_sets_labels df) as [<- <-]. rewrite basket_sets_presence.
  destruct (index_presence (list_to_set (pairs df))) as (_ & Hn1 & Hm1).
  destruct (columns_presence (list_to_set (pairs df))) as (_ & Hn2 & Hm2).
  split_and!; [done| |done|].
  - intros o. rewrite Hm1. by setoid_rewrite elem_of_list_to_set.
  - intros p. rewrite Hm2. by setoid_rewrite elem_of_list_to_set.
Qed.
End store_extra.

(** ** The ordered pairs of a rule table *)

Lemma length_pairs_of {A B} (l : list A) (k : list B) :
  length (a ← l; c ← k; [(a, c)]) = (length l * length k)%nat.
Proof.
  induction l as [|a l IH]; [done|].
  rewrite bind_cons, length_app, IH. simpl. f_equal.
  clear. induction k as [|c k IHk]; [done|].
  rewrite bind_cons. simpl. by rewrite IHk.
Qed.

Lemma length_rule_pairs (rows : list Rule) :
  length (row ← rows; a ← elements (antecedents row);
          c ← elements (consequents row); [(a, c)])
  = sum_list_with (λ row, size (antecedents row) * size (consequents row))%nat
      rows.
Proof.
  induction rows as [|row rows IH]; [done|].
  rewrite bind_cons, length_app, IH, length_pairs_of. done.
Qed.

Lemma elem_of_rule_pairs (rows : list Rule) u v :
  (u, v) ∈ (row ← rows; a ← elements (antecedents row);
            c ← elements (consequents row); [(a, c)])
  ↔ ∃ row, row ∈ rows ∧ produces u v row.
Proof.
  rewrite list_elem_of_bind. unfold produces. split.
  - intros (row & Hin & Hrow). exists row. split; [done|].
    apply list_elem_of_bind in Hin as (a & Hin & Ha).
    apply list_elem_of_bind in Hin as (c & Hin & Hc).
    apply list_elem_of_singleton in Hin as [= -> ->].
    by rewrite <- !elem_of_elements.
  - intros (row & Hrow & Ha & Hc). exists row. split; [|done].
    apply list_elem_of_bind. exists u. split; [|by apply elem_of_elements].
    apply list_elem_of_bind. exists v. split; [|by apply elem_of_elements].
    by apply list_elem_of_singleton.
Qed.

(** ** The slider of the graph stage *)

(** The graph stage draws the graph at the position of the slider when the
    two ends of the slider differ, and raises otherwise. *)
Lemma graph_stage_spec rules metric_choice moved_to mn mx :
  series_min (column metric_choice <$> rules) = Some mn →
  series_max (column metric_choice <$> rules) = Some mx →
  (mn <= mx)%Q →
  graph_stage rules metric_choice moved_to
  = if Qle_bool mx mn then Err StreamlitAPIException
    else Ok (draw_network rules metric_choice (default mn moved_to)).
Proof.
  intros Hmin Hmax Hle. unfold graph_stage, slider. rewrite Hmin, Hmax.
  destruct (Qle_bool mx mn); [done|].
  rewrite (proj2 (Qle_bool_iff mn mn)) by apply Qle_refl.
  by rewrite (proj2 (Qle_bool_iff mn mx)) by done.
Qed.

Lemma series_min_max_le s mn mx :
  series_min s = Some mn → series_max s = Some mx → (mn <= mx)%Q.
Proof.
  destruct s as [|x s]; [done|]. simpl. intros [= <-] [= <-].
  apply Qle_trans with x.
  - clear. revert x. induction s as [|z s IH]; intros x; simpl;
      [apply Qle_refl|].
    eapply Qle_trans; [apply IH|]. unfold Qmin'.
    destruct (Qle_bool x z) eqn:Hxz; [apply Qle_refl|].
    apply Qlt_le_weak, Qnot_le_lt. rewrite <- Qle_bool_iff. congruence.
  - apply (proj1 (foldl_Qmax'_ge x s)).
Qed.

(** A graph is drawn only when the two ends differ, and the threshold is
    then the position of the slider. *)
Lemma graph_stage_Ok rules metric_choice moved_to G :
  graph_stage rules metric_choice moved_to = Ok G →
  ∃ mn mx,
    series_min (column metric_choice <$> rules) = Some mn
    ∧ series_max (column metric_choice <$> rules) = Some mx
    ∧ (mn < mx)%Q
    ∧ G = draw_network rules metric_choice (default mn moved_to).
Proof.
  intros HG.
  destruct (series_min (column metric_choice <$> rules)) as [mn|] eqn:Hmin;
    [|by unfold graph_stage in HG; rewrite Hmin in HG].
  destruct (series_max (column metric_choice <$> rules)) as [mx|] eqn:Hmax;
    [|by unfold graph_stage in HG; rewrite Hmin, Hmax in HG].
  pose proof (series_min_max_le _ _ _ Hmin Hmax) as Hle.
  rewrite (graph_stage_spec _ _ _ _ _ Hmin Hmax Hle) in HG.
  destruct (Qle_bool mx mn) eqn:Hb; [done|]. injection HG as <-.
  exists mn, mx. split_and!; [done..| |done].
  apply Qnot_le_lt. rewrite <- Qle_bool_iff. congruence.
Qed.

(** * The rule graph: claims C1, C2 and C10 *)

Lemma elem_of_rows_ge col v rules row :
  row ∈ rows_ge col v rules ↔ row ∈ rules ∧ (v <= col row)%Q.
Proof.
  unfold rows_ge. rewrite list_elem_of_filter, Qle_bool_iff. tauto.
Qed.

Lemma wf_draw_network rules selected_metric min_val :
  wf_graph (draw_network rules selected_metric min_val).
Proof. apply wf_foldl_rows, wf_empty_graph. Qed.

Lemma get_edge_draw_network rules selected_metric min_val u v :
  get_edge u v (draw_network rules selected_metric min_val)
  = edge_attr selected_metric
    <$> last_producer u v (rows_ge (column selected_metric) min_val rules).
Proof.
  unfold draw_network. rewrite get_edge_foldl_rows.
  by destruct (last_producer _ _ _).
Qed.

Lemma edges_draw_network_attr rules selected_metric min_val u v attr :
  ((u, v), attr) ∈ edges (draw_network rules selected_metric min_val) →
  ∃ row, row ∈ rows_ge (column selected_metric) min_val rules ∧
    produces u v row ∧ attr = edge_attr selected_metric row.
Proof.
  intros Hin. apply elem_of_edges_get in Hin; [|apply wf_draw_network].
  rewrite get_edge_draw_network in Hin.
  destruct (last_producer u v _) as [row|] eqn:Hl; [|done].
  apply last_producer_Some in Hl as [? ?]. simpl in Hin.
  exists row. by simplify_eq.
Qed.

Lemma elem_of_edges_draw_network rules selected_metric min_val u v :
  (u, v) ∈ (edges (draw_network rules selected_metric min_val)).*1
  ↔ ∃ row, row ∈ rows_ge (column selected_metric) min_val rules ∧
      produces u v row.
Proof.
  split.
  - intros [[k attr] [Hk Hin]]%list_elem_of_fmap. simpl in Hk. subst k.
    destruct (edges_draw_network_attr _ _ _ _ _ _ Hin) as (row & ? & ? & _).
    eauto.
  - intros (row & Hin & Hp).
    destruct (last_producer u v (rows_ge (column selected_metric) min_val rules))
      as [row'|] eqn:Hl.
    + apply list_elem_of_fmap. exists ((u, v), edge_attr selected_metric row').
      split; [done|]. apply elem_of_edges_get; [apply wf_draw_network|].
      rewrite get_edge_draw_network. by rewrite Hl.
    + exfalso. eapply last_producer_None in Hl; eauto.
Qed.

(** C1, as stated, fails: both rules map to the ordered pair (a, b), with
    confidences 2/3 and 1/3.  The graph has one edge (a, b), but its weight
    is 1/3, the weight of the rule inserted last, and not the maximum 2/3.
    The same happens in a run of the dashboard on the worked example: the
    rules eggs -> bread (confidence 1) and eggs -> {milk, bread}
    (confidence 1/2) collide, and the edge (eggs, bread) ends with weight
    1/2. *)
Lemma C1_max_weight_counterexample :
  let rules := [rule_a_b; rule_a_bc] in
  let G := draw_network rules Confidence (1 # 3) in
  produces "a" "b" rule_a_b ∧ produces "a" "b" rule_a_bc ∧
  edge_count "a" "b" G = 1%nat ∧
  max_weight Confidence "a" "b" rules = Some (2 # 3) ∧
  (weight <$> get_edge "a" "b" G) = Some (1 # 3) ∧
  ¬ (1 # 3 == 2 # 3)%Q ∧
  ∃ mined G',
    main mlxtend example_df (1 # 4) (1 # 2) 1%Q Confidence None
      = Ok (Dashboard mined (display_rules mined) G') ∧
    max_weight Confidence "eggs" "bread" mined = Some 1%Q ∧
    (weight <$> get_edge "eggs" "bread" G') = Some (1 # 2).
Proof.
  split_and!; try (vm_compute; reflexivity).
  - split; set_solver.
  - split; set_solver.
  - intros H. vm_compute in H. discriminate.
  - destruct (mine_rules mlxtend example_df (1 # 4) (1 # 2) 1%Q)
      as [mined|e] eqn:Hmined; [|by vm_compute in Hmined].
    destruct (graph_stage mined Confidence None) as [G'|e] eqn:HG'.
    + exists mined, G'. vm_compute in Hmined. injection Hmined as <-.
      vm_compute in HG'. injection HG' as <-.
      split_and!; vm_compute; reflexivity.
    + vm_compute in Hmined. injection Hmined as <-. by vm_compute in HG'.
Qed.

(** C1, amended: for an ordered pair (u, v) produced by some rule that
    passes the graph-stage filter, the graph has exactly one edge (u, v),
    and its weight and lift annotation are those of the last such rule in
    the iteration order of the rule table. *)
Theorem C1_edge_collision_last_wins rules selected_metric min_val u v
    rows1 row rows2 :
  rows_ge (column selected_metric) min_val rules = rows1 ++ row :: rows2 →
  produces u v row →
  (∀ row', row' ∈ rows2 → ¬ produces u v row') →
  let G := draw_network rules selected_metric min_val in
  edge_count u v G = 1%nat ∧
  get_edge u v G = Some (edge_attr selected_metric row) ∧
  (weight <$> get_edge u v G) = Some (column selected_metric row).
Proof.
  intros Hrows Hp Hlast G.
  assert (Hg : get_edge u v G = Some (edge_attr selected_metric row)).
  { unfold G. rewrite get_edge_draw_network, Hrows.
    by rewrite last_producer_app. }
  split_and!.
  - rewrite edge_count_get by apply wf_draw_network. fold G. by rewrite Hg.
  - done.
  - by rewrite Hg.
Qed.

Lemma C1_edge_collision_last_wins_witness :
  let G := draw_network [rule_a_b; rule_a_bc] Confidence (1 # 3) in
  edge_count "a" "b" G = 1%nat ∧
  get_edge "a" "b" G = Some (edge_attr Confidence rule_a_bc) ∧
  (weight <$> get_edge "a" "b" G) = Some (1 # 3).
Proof.
  apply (C1_edge_collision_last_wins [rule_a_b; rule_a_bc] Confidence (1 # 3)
           "a" "b" [rule_a_b] rule_a_bc []).
  - vm_compute. reflexivity.
  - split; set_solver.
  - intros row' Hin. by apply elem_of_nil in Hin.
Defined.

(** C2: [draw_network] keeps exactly the rules whose selected metric is at
    least [min_val]; processing a kept rule inserts an edge for every pair
    of its antecedent-consequent cross product, carrying the rule's metric
    value as weight and its lift as annotation; the edges of the finished
    graph are exactly the pairs produced by kept rules, each with the
    attributes of a kept rule producing it; and the nodes are exactly the
    items incident to an edge. *)
Theorem C2_draw_network_graph rules selected_metric min_val :
  let kept := rows_ge (column selected_metric) min_val rules in
  let G := draw_network rules selected_metric min_val in
  (∀ row, row ∈ kept ↔ row ∈ rules ∧ (min_val <= column selected_metric row)%Q) ∧
  (∀ G0 row u v, produces u v row →
     get_edge u v (add_rule_edges selected_metric G0 row)
     = Some {| weight := column selected_metric row;
               title := "Lift: " +:+ format_2f (lift row) |}) ∧
  (∀ u v, (u, v) ∈ (edges G).*1 ↔ ∃ row, row ∈ kept ∧ produces u v row) ∧
  (∀ u v attr, ((u, v), attr) ∈ edges G →
     ∃ row, row ∈ kept ∧ produces u v row ∧
       weight attr = column selected_metric row ∧
       title attr = "Lift: " +:+ format_2f (lift row)) ∧
  (∀ n, n ∈ nodes G ↔ ∃ m, (n, m) ∈ (edges G).*1 ∨ (m, n) ∈ (edges G).*1).
Proof.
  intros kept G.
  assert (Hattr := edges_draw_network_attr rules selected_metric min_val).
  assert (Hedge := elem_of_edges_draw_network rules selected_metric min_val).
  fold G kept in Hattr, Hedge.
  split_and!.
  - intros row. apply elem_of_rows_ge.
  - intros G0 row u v Hp.
    rewrite get_edge_add_rule_edges, decide_True by done. done.
  - done.
  - intros u v attr Hin. destruct (Hattr _ _ _ Hin) as (row & ? & ? & ->).
    exists row. done.
  - intros n. unfold G at 1, draw_network. fold kept.
    rewrite elem_of_nodes_foldl_rows. setoid_rewrite Hedge. split.
    + intros [?%elem_of_nil|(row & m & ? & [?|?])]; [done|..];
        exists m; [left|right]; eauto.
    + intros [m [(row & ? & ?)|(row & ? & ?)]]; right; exists row, m; auto.
Qed.

Lemma foldl_Qmin'_le x s :
  (foldl Qmin' x s <= x)%Q ∧ ∀ y, y ∈ s → (foldl Qmin' x s <= y)%Q.
Proof.
  revert x. induction s as [|z s IH]; intros x; simpl.
  - split; [apply Qle_refl|]. by intros y ?%elem_of_nil.
  - destruct (IH (Qmin' x z)) as [H1 H2].
    assert (Hm : (Qmin' x z <= x)%Q ∧ (Qmin' x z <= z)%Q).
    { unfold Qmin'. destruct (Qle_bool x z) eqn:Hle.
      - split; [apply Qle_refl|by apply Qle_bool_iff].
      - split; [|apply Qle_refl]. apply Qlt_le_weak, Qnot_le_lt.
        rewrite <- Qle_bool_iff. congruence. }
    destruct Hm as [Hx Hz]. split; [by eapply Qle_trans|].
    intros y [->|?]%elem_of_cons; [by eapply Qle_trans|auto].
Qed.

Lemma foldl_Qmin'_elem x s : foldl Qmin' x s ∈ x :: s.
Proof.
  revert x. induction s as [|z s IH]; intros x; simpl; [left|].
  specialize (IH (Qmin' x z)). unfold Qmin' in *.
  destruct (Qle_bool x z).
  - apply elem_of_cons in IH as [->|?]; [left|right; by right].
  - right. done.
Qed.

Lemma series_min_spec s m :
  series_min s = Some m → m ∈ s ∧ ∀ y, y ∈ s → (m <= y)%Q.
Proof.
  destruct s as [|x s]; simpl; [done|]. intros [= <-].
  split; [apply foldl_Qmin'_elem|].
  destruct (foldl_Qmin'_le x s) as [H1 H2].
  intros y [->|?]%elem_of_cons; auto.
Qed.

Lemma filter_all {A} (P : A → Prop) `{∀ x, Decision (P x)} (l : list A) :
  (∀ x, x ∈ l → P x) → filter P l = l.
Proof.
  induction l as [|x l IH]; intros Hall; [done|].
  rewrite filter_cons, decide_True by (apply Hall; left).
  f_equal. apply IH. intros y Hy. apply Hall. by right.
Qed.

(** C10 holds of the filter and fails of the run: with the slider
    untouched the threshold is the least value of the column and the
    filter of [draw_network] keeps every rule, but the slider is built
    first, and it raises when the least and the largest value of the
    column are equal.  On the worked example with [min_support = 0.5],
    [min_confidence = 0.7] and [min_lift = 1] the rule table is the single
    rule eggs -> bread: the graph at the default threshold would have the
    edge (eggs, bread), and the run ends with the exception of the slider
    instead, so no graph is drawn. *)
Theorem C10_single_rule_slider_raises :
  let rules := [rule_eggs_bread] in
  mine_rules mlxtend example_df (1 # 2) (7 # 10) 1%Q = Ok rules
  ∧ series_min (column Confidence <$> rules) = Some 1%Q
  ∧ series_max (column Confidence <$> rules) = Some 1%Q
  ∧ rows_ge (column Confidence) 1%Q rules = rules
  ∧ (weight <$> get_edge "eggs" "bread" (draw_network rules Confidence 1%Q))
    = Some 1%Q
  ∧ slider None 1%Q 1%Q 1%Q = Err StreamlitAPIException
  ∧ graph_stage rules Confidence None = Err StreamlitAPIException
  ∧ main mlxtend example_df (1 # 2) (7 # 10) 1%Q Confidence None
    = Err StreamlitAPIException.
Proof. split_and!; vm_compute; reflexivity. Qed.

(** * Mining and rule generation: claims C3 to C8 *)

Lemma example_apriori :
  Mlxtend.apriori (basket_sets example_df) (1 # 2)
  = Ok example_frequent_itemsets.
Proof. vm_compute. reflexivity. Qed.

Lemma example_association_rules :
  Mlxtend.association_rules example_frequent_itemsets (1 # 2)
  = Ok example_rules.
Proof. vm_compute. reflexivity. Qed.

(** Every rule generated from a mined table carries the metrics of the
    transaction store. *)
Lemma generated_rule_metrics b min_support min_threshold fi rules r :
  Mlxtend.apriori b min_support = Ok fi →
  Mlxtend.association_rules fi min_threshold = Ok rules →
  r ∈ rules →
  r = Mlxtend.rule_metrics b (antecedents r) (consequents r)
  ∧ (min_threshold <= confidence r)%Q
  ∧ ∃ X, X ∈ Mlxtend.mine b min_support
       ∧ (antecedents r, consequents r) ∈ Mlxtend.bipartitions X.
Proof.
  intros Hap Hrules Hr.
  destruct (association_rules_mined b min_support min_threshold fi Hap)
    as (scored & _ & Hgen & Hscored).
  rewrite Hgen in Hrules. injection Hrules as <-.
  apply elem_of_rows_ge in Hr as [Hr Hconf].
  apply Hscored in Hr as (X & HX & _ & Hac & Hr). eauto.
Qed.

(** C3: every generated rule has support equal to the support of the union
    of its two sides, confidence equal to that support divided by the
    support of the antecedent, and lift equal to the confidence divided by
    the support of the consequent.  In the worked example (thresholds 0.5
    and 0.5) the rule milk -> bread is generated with confidence 0.5/0.75
    and lift (0.5/0.75)/0.75. *)
Theorem C3_rule_metric_identities :
  (∀ b min_support min_confidence fi rules r,
     Mlxtend.apriori b min_support = Ok fi →
     Mlxtend.association_rules fi min_confidence = Ok rules →
     r ∈ rules →
     support r = itemset_support b (antecedents r ∪ consequents r)
     ∧ (confidence r == support r / itemset_support b (antecedents r))%Q
     ∧ (lift r == confidence r / itemset_support b (consequents r))%Q)
  ∧ (∃ fi rules,
       Mlxtend.apriori (basket_sets example_df) (1 # 2) = Ok fi
       ∧ Mlxtend.association_rules fi (1 # 2) = Ok rules
       ∧ rule_milk_bread ∈ rules
       ∧ (confidence rule_milk_bread == (1 # 2) / (3 # 4))%Q
       ∧ (lift rule_milk_bread == ((1 # 2) / (3 # 4)) / (3 # 4))%Q).
Proof.
  split.
  - intros b ms mc fi rules r Hap Hrules Hr.
    destruct (generated_rule_metrics _ _ _ _ _ _ Hap Hrules Hr) as (Heq & _).
    pose proof (f_equal support Heq) as Hs.
    pose proof (f_equal confidence Heq) as Hc.
    pose proof (f_equal lift Heq) as Hl. simpl in Hs, Hc, Hl.
    split_and!; [done| |].
    + rewrite Hc, Hs. apply Qred_correct.
    + rewrite Hl, Hc. apply Qred_correct.
  - eexists _, _. split_and!.
    + apply example_apriori.
    + apply example_association_rules.
    + do 2 right. left.
    + reflexivity.
    + reflexivity.
Qed.

Lemma C3_rule_metric_identities_witness :
  support rule_milk_bread
  = itemset_support (basket_sets example_df)
      (antecedents rule_milk_bread ∪ consequents rule_milk_bread)
  ∧ (confidence rule_milk_bread
     == support rule_milk_bread
        / itemset_support (basket_sets example_df) (antecedents rule_milk_bread))%Q
  ∧ (lift rule_milk_bread
     == confidence rule_milk_bread
        / itemset_support (basket_sets example_df) (consequents rule_milk_bread))%Q.
Proof.
  apply (proj1 C3_rule_metric_identities (basket_sets example_df) (1 # 2) (1 # 2)
           example_frequent_itemsets example_rules rule_milk_bread).
  - vm_compute. reflexivity.
  - vm_compute. reflexivity.
  - do 2 right. left.
Defined.



(** C5: support never grows when an itemset grows; an itemset below the
    support threshold has no superset in the mined table; and a candidate
    dropped at a level of the search, by the prune step or by the support
    filter, is below the threshold. *)
Theorem C5_antimonotone :
  (∀ b A B, A ⊆ B → (itemset_support b B <= itemset_support b A)%Q)
  ∧ (∀ b min_support fi A B,
       Mlxtend.apriori b min_support = Ok fi →
       ¬ (min_support <= itemset_support b A)%Q →
       A ⊆ B →
       B ∉ itemsets <$> fi)
  ∧ (∀ b min_support j L A,
       (∀ Y, Y ∈ L ↔ Mlxtend.frequent_of_size b min_support (S j) Y) →
       A ∈ Mlxtend.join (S (S j)) L →
       A ∉ Mlxtend.next_level b min_support (S (S j)) L →
       ¬ (min_support <= itemset_support b A)%Q).
Proof.
  split_and!.
  - intros b A B. apply itemset_support_anti.
  - intros b ms fi A B Hap HA HAB [f [-> Hf]]%list_elem_of_fmap.
    apply (elem_of_apriori _ _ _ _ Hap) in Hf as (_ & _ & _ & Hfreq).
    apply HA. apply Qle_bool_iff. by eapply frequent_anti.
  - intros b ms j L A HL Hjoin Hdrop Hfreq. apply Hdrop.
    apply elem_of_next_level; [done|].
    destruct (join_size_columns b ms j L A HL Hjoin) as [? ?].
    split_and!; [done..|]. by apply Qle_bool_iff.
Qed.

Lemma C5_antimonotone_witness :
  ({["milk"; "eggs"; "bread"]} : gset Item)
    ∉ itemsets <$> example_frequent_itemsets.
Proof.
  apply (proj1 (proj2 C5_antimonotone) (basket_sets example_df) (1 # 2)
           example_frequent_itemsets {["milk"; "eggs"]}).
  - vm_compute. reflexivity.
  - intros H. vm_compute in H. by apply H.
  - set_solver.
Defined.

(** C6, as stated, fails in its worked example: at [min_support = 0.5]
    eggs, with support 2/4, reaches the inclusive threshold and is mined,
    and so is {eggs, bread}; the mined table is not the one listed. *)
Lemma C6_worked_example_counterexample :
  Mlxtend.apriori (basket_sets example_df) (1 # 2)
    = Ok example_frequent_itemsets
  ∧ {| fi_support := 1 # 2; itemsets := {["eggs"]} |}
      ∈ example_frequent_itemsets
  ∧ {| fi_support := 1 # 2; itemsets := {["eggs"; "bread"]} |}
      ∈ example_frequent_itemsets
  ∧ ¬ (example_frequent_itemsets ≡ₚ claimed_frequent_itemsets).
Proof.
  split_and!.
  - apply example_apriori.
  - right. left.
  - do 3 right. left.
  - intros Hp%Permutation_length. discriminate Hp.
Qed.

(** C6, amended: every mined itemset has a support between 0 and 1 that
    reaches [min_support]; the comparison is inclusive: every non-empty
    itemset over the columns whose support reaches (in particular, equals)
    [min_support] is in the table.  In the worked example at
    [min_support = 0.5] the table holds milk (0.75), bread (0.75) and eggs
    (0.5), and the pairs {milk, bread} (0.5) and {eggs, bread} (0.5). *)
Theorem C6_support_bounds_inclusive :
  (∀ b min_support fi,
     Mlxtend.apriori b min_support = Ok fi →
     (∀ f, f ∈ fi →
        fi_support f = itemset_support b (itemsets f)
        ∧ (0 <= fi_support f)%Q ∧ (fi_support f <= 1)%Q
        ∧ (min_support <= fi_support f)%Q)
     ∧ (∀ X, X ≠ ∅ → X ⊆ list_to_set (columns b) →
          (min_support <= itemset_support b X)%Q →
          {| fi_support := itemset_support b X; itemsets := X |} ∈ fi))
  ∧ Mlxtend.apriori (basket_sets example_df) (1 # 2)
    = Ok [ {| fi_support := 3 # 4; itemsets := {["bread"]} |};
           {| fi_support := 1 # 2; itemsets := {["eggs"]} |};
           {| fi_support := 3 # 4; itemsets := {["milk"]} |};
           {| fi_support := 1 # 2; itemsets := {["eggs"; "bread"]} |};
           {| fi_support := 1 # 2; itemsets := {["milk"; "bread"]} |} ].
Proof.
  split; [|apply example_apriori].
  intros b ms fi Hap. split.
  - intros f Hf.
    apply (elem_of_apriori _ _ _ _ Hap) in Hf as (Hf & _ & _ & Hfreq).
    assert (Hs : fi_support f = itemset_support b (itemsets f))
      by (by rewrite Hf at 1).
    rewrite Hs. split_and!; [done|apply itemset_support_nonneg|
      apply itemset_support_le_1|by apply Qle_bool_iff].
  - intros X Hne Hcols Hfreq.
    apply (elem_of_apriori _ _ _ _ Hap). simpl.
    split_and!; [done..|]. by apply Qle_bool_iff.
Qed.

Lemma C6_support_bounds_inclusive_witness :
  (∀ f, f ∈ example_frequent_itemsets →
     fi_support f = itemset_support (basket_sets example_df) (itemsets f)
     ∧ (0 <= fi_support f)%Q ∧ (fi_support f <= 1)%Q
     ∧ (1 # 2 <= fi_support f)%Q)
  ∧ (∀ X, X ≠ ∅ → X ⊆ list_to_set (columns (basket_sets example_df)) →
       (1 # 2 <= itemset_support (basket_sets example_df) X)%Q →
       {| fi_support := itemset_support (basket_sets example_df) X;
          itemsets := X |} ∈ example_frequent_itemsets).
Proof.
  apply (proj1 C6_support_bounds_inclusive (basket_sets example_df) (1 # 2)
           example_frequent_itemsets).
  vm_compute. reflexivity.
Defined.

(** C7: the one-hot matrix is the matrix of presence bits of the set of
    (order, product) pairs of the table: every cell is 0 or 1, and two
    tables with the same set of pairs, however often each pair is repeated,
    give the same matrix and hence the same rules and the same dashboard. *)
Theorem C7_presence_bits df df' :
  (list_to_set (pairs df) : gset (Z * Item)) = list_to_set (pairs df') →
  basket_sets df = presence_matrix (list_to_set (pairs df))
  ∧ (∀ row x, row ∈ values (basket_sets df) → x ∈ row → x = 0 ∨ x = 1)
  ∧ basket_sets df = basket_sets df'
  ∧ (∀ lib min_support min_confidence min_lift,
       mine_rules lib df min_support min_confidence min_lift
       = mine_rules lib df' min_support min_confidence min_lift)
  ∧ (∀ lib min_support min_confidence min_lift metric_choice moved_to,
       main lib df min_support min_confidence min_lift metric_choice moved_to
       = main lib df' min_support min_confidence min_lift metric_choice
           moved_to).
Proof.
  intros Hpairs.
  assert (Heq : basket_sets df = basket_sets df')
    by (by rewrite !basket_sets_presence, Hpairs).
  split_and!.
  - apply basket_sets_presence.
  - rewrite basket_sets_presence. unfold presence_matrix. simpl.
    intros row x (o & -> & _)%list_elem_of_fmap (p & -> & _)%list_elem_of_fmap.
    destruct (bool_decide _); auto.
  - done.
  - intros. unfold mine_rules. by rewrite Heq.
  - intros. unfold main, mine_rules. by rewrite Heq.
Qed.

Lemma C7_presence_bits_witness :
  let once := [ {| order_id := Some 1; product := Some "milk" |};
                {| order_id := Some 1; product := Some "bread" |} ] in
  let many := [ {| order_id := Some 1; product := Some "milk" |};
                {| order_id := Some 1; product := Some "bread" |};
                {| order_id := Some 1; product := Some "milk" |};
                {| order_id := Some 1; product := Some "milk" |} ] in
  basket_sets once = presence_matrix (list_to_set (pairs once))
  ∧ (∀ row x, row ∈ values (basket_sets once) → x ∈ row → x = 0 ∨ x = 1)
  ∧ basket_sets once = basket_sets many
  ∧ (∀ lib min_support min_confidence min_lift,
       mine_rules lib once min_support min_confidence min_lift
       = mine_rules lib many min_support min_confidence min_lift)
  ∧ (∀ lib min_support min_confidence min_lift metric_choice moved_to,
       main lib once min_support min_confidence min_lift metric_choice moved_to
       = main lib many min_support min_confidence min_lift metric_choice
           moved_to).
Proof.
  intros once many. apply (C7_presence_bits once many).
  vm_compute. reflexivity.
Defined.



(** * The CSV export: claim C9 *)




(** * Further properties of the dashboard code *)

(** ** The graph of [draw_network] *)

(** X1: whatever the rule table, the graph of [draw_network] is a simple
    directed graph: no node is listed twice, an ordered pair of nodes
    carries at most one edge, and both ends of every edge are nodes. *)
Theorem X1_draw_network_simple_graph rules selected_metric min_val :
  let G := draw_network rules selected_metric min_val in
  NoDup (nodes G)
  ∧ NoDup (edges G).*1
  ∧ (∀ u v, (edge_count u v G ≤ 1)%nat)
  ∧ (∀ u v, (u, v) ∈ (edges G).*1 → u ∈ nodes G ∧ v ∈ nodes G).
Proof.
  intros G. assert (Hwf : wf_graph G) by apply wf_draw_network.
  split_and!.
  - apply Hwf.
  - by apply NoDup_edges.
  - intros u v. rewrite edge_count_get by done.
    destruct (get_edge u v G); lia.
  - intros u v (row & Hrow & Hp)%elem_of_edges_draw_network.
    split; apply elem_of_nodes_draw_network; exists row; [exists v|exists u];
      auto.
Qed.

(** X2: raising the threshold only removes from the graph: every edge and
    every node of the graph at the higher threshold is an edge or a node of
    the graph at the lower one. *)
Theorem X2_threshold_monotone rules selected_metric min_val min_val' :
  (min_val <= min_val')%Q →
  let G := draw_network rules selected_metric min_val in
  let G' := draw_network rules selected_metric min_val' in
  (∀ u v, (u, v) ∈ (edges G').*1 → (u, v) ∈ (edges G).*1)
  ∧ (∀ n, n ∈ nodes G' → n ∈ nodes G).
Proof.
  intros Hle G G'.
  assert (Hkept : ∀ row, row ∈ rows_ge (column selected_metric) min_val' rules
            → row ∈ rows_ge (column selected_metric) min_val rules).
  { intros row [? ?]%elem_of_rows_ge. apply elem_of_rows_ge.
    split; [done|]. by eapply Qle_trans. }
  split.
  - intros u v (row & Hrow & Hp)%elem_of_edges_draw_network.
    apply elem_of_edges_draw_network. eauto.
  - intros n (row & m & Hrow & Hp)%elem_of_nodes_draw_network.
    apply elem_of_nodes_draw_network. eauto.
Qed.

Lemma X2_threshold_monotone_witness :
  let G := draw_network [rule_a_b; rule_a_bc] Confidence (1 # 3) in
  let G' := draw_network [rule_a_b; rule_a_bc] Confidence (1 # 2) in
  (∀ u v, (u, v) ∈ (edges G').*1 → (u, v) ∈ (edges G).*1)
  ∧ (∀ n, n ∈ nodes G' → n ∈ nodes G).
Proof.
  apply (X2_threshold_monotone [rule_a_b; rule_a_bc] Confidence (1 # 3) (1 # 2)).
  vm_compute. discriminate.
Defined.

(** X3: a threshold above the selected metric of every rule leaves nothing
    to draw: the graph has no node and no edge. *)
Theorem X3_threshold_above_all rules selected_metric min_val :
  (∀ row, row ∈ rules → (column selected_metric row < min_val)%Q) →
  draw_network rules selected_metric min_val = empty_graph
  ∧ nodes (draw_network rules selected_metric min_val) = []
  ∧ edges (draw_network rules selected_metric min_val) = [].
Proof.
  intros Hall.
  assert (Hkept : rows_ge (column selected_metric) min_val rules = []).
  { destruct (rows_ge _ _ _) as [|row l] eqn:Hk; [done|]. exfalso.
    assert (Hin : row ∈ rows_ge (column selected_metric) min_val rules)
      by (rewrite Hk; left).
    apply elem_of_rows_ge in Hin as [Hin Hle].
    by apply (Qlt_not_le _ _ (Hall row Hin)). }
  unfold draw_network. rewrite Hkept. done.
Qed.

Lemma X3_threshold_above_all_witness :
  draw_network [rule_a_b; rule_a_bc] Confidence 1%Q = empty_graph
  ∧ nodes (draw_network [rule_a_b; rule_a_bc] Confidence 1%Q) = []
  ∧ edges (draw_network [rule_a_b; rule_a_bc] Confidence 1%Q) = [].
Proof.
  apply (X3_threshold_above_all [rule_a_b; rule_a_bc] Confidence 1%Q).
  intros row Hrow. set_unfold. destruct_or!; subst; vm_compute; reflexivity.
Defined.

(** X4: when no rule of the table has an item on both of its sides, the
    graph has no edge from a node to itself. *)
Theorem X4_no_self_loops rules selected_metric min_val :
  (∀ row, row ∈ rules → antecedents row ## consequents row) →
  ∀ u, ((u, u) ∉ (edges (draw_network rules selected_metric min_val)).*1)
       ∧ get_edge u u (draw_network rules selected_metric min_val) = None.
Proof.
  intros Hdisj u.
  assert (Hno : (u, u) ∉ (edges (draw_network rules selected_metric min_val)).*1).
  { intros (row & [Hrow _]%elem_of_rows_ge & [Ha Hc])%elem_of_edges_draw_network.
    by apply (Hdisj row Hrow u). }
  split; [done|].
  destruct (get_edge u u _) as [attr|] eqn:Hg; [|done]. exfalso. apply Hno.
  apply list_elem_of_fmap. exists ((u, u), attr). split; [done|].
  apply elem_of_edges_get; [apply wf_draw_network|done].
Qed.

Lemma X4_no_self_loops_witness :
  (("a", "a") ∉ (edges (draw_network [rule_a_b; rule_a_bc] Confidence (1 # 3))).*1)
  ∧ get_edge "a" "a" (draw_network [rule_a_b; rule_a_bc] Confidence (1 # 3))
    = None.
Proof.
  apply (X4_no_self_loops [rule_a_b; rule_a_bc] Confidence (1 # 3)).
  intros row Hrow. set_unfold. destruct_or!; subst; simpl; set_solver.
Defined.

(** X5: rows appended to the rule table never remove an edge: every edge of
    the graph of the shorter table is an edge of the graph of the longer
    one, and it keeps its weight and annotation unless an appended row that
    passes the threshold maps to the same ordered pair. *)
Theorem X5_appended_rows rules rules' selected_metric min_val u v attr :
  get_edge u v (draw_network rules selected_metric min_val) = Some attr →
  is_Some (get_edge u v (draw_network (rules ++ rules') selected_metric min_val))
  ∧ ((∀ row, row ∈ rules' → (min_val <= column selected_metric row)%Q →
        ¬ produces u v row) →
     get_edge u v (draw_network (rules ++ rules') selected_metric min_val)
     = Some attr).
Proof.
  rewrite !get_edge_draw_network, rows_ge_app, last_producer_app_r.
  intros Hg. split.
  - destruct (last_producer u v (rows_ge _ _ rules')); [by eexists|].
    rewrite Hg. by eexists.
  - intros Hnone.
    destruct (last_producer u v (rows_ge _ _ rules')) as [row|] eqn:Hl; [|done].
    apply last_producer_Some in Hl as [[? ?]%elem_of_rows_ge ?].
    exfalso. by eapply Hnone.
Qed.

Lemma X5_appended_rows_witness :
  is_Some (get_edge "a" "b"
             (draw_network ([rule_a_b] ++ [rule_a_bc]) Confidence (1 # 2)))
  ∧ ((∀ row, row ∈ [rule_a_bc] → (1 # 2 <= column Confidence row)%Q →
        ¬ produces "a" "b" row) →
     get_edge "a" "b"
       (draw_network ([rule_a_b] ++ [rule_a_bc]) Confidence (1 # 2))
     = Some (edge_attr Confidence rule_a_b)).
Proof.
  apply (X5_appended_rows [rule_a_b] [rule_a_bc] Confidence (1 # 2) "a" "b").
  vm_compute. reflexivity.
Defined.

(** ** The graph parameters and the run of the script *)

(** X6: for a non-empty rule table the two ends of the slider exist, the
    lower end does not exceed the upper end, every rule's metric lies
    between them, and at every threshold up to the upper end at least one
    rule is kept for the graph. *)
Theorem X6_slider_range rules metric_choice :
  rules ≠ [] →
  ∃ min_val_default max_val_default,
    series_min (column metric_choice <$> rules) = Some min_val_default
    ∧ series_max (column metric_choice <$> rules) = Some max_val_default
    ∧ (min_val_default <= max_val_default)%Q
    ∧ (∀ row, row ∈ rules →
         (min_val_default <= column metric_choice row)%Q
         ∧ (column metric_choice row <= max_val_default)%Q)
    ∧ (∀ min_val, (min_val <= max_val_default)%Q →
         rows_ge (column metric_choice) min_val rules ≠ []).
Proof.
  intros Hne.
  destruct (series_min (column metric_choice <$> rules)) as [mn|] eqn:Hmin;
    [|by destruct rules].
  destruct (series_max (column metric_choice <$> rules)) as [mx|] eqn:Hmax;
    [|by destruct rules].
  destruct (series_min_spec _ _ Hmin) as [Hmn_in Hmn].
  destruct (series_max_spec _ _ Hmax) as [Hmx_in Hmx].
  exists mn, mx. split_and!; [done..| | |].
  - by apply Hmn.
  - intros row Hrow.
    assert (column metric_choice row ∈ column metric_choice <$> rules)
      by (apply list_elem_of_fmap; eauto).
    split; [by apply Hmn|by apply Hmx].
  - intros v Hv Hnil.
    apply list_elem_of_fmap in Hmx_in as (row & -> & Hrow).
    assert (Hin : row ∈ rows_ge (column metric_choice) v rules)
      by (by apply elem_of_rows_ge).
    rewrite Hnil in Hin. by apply elem_of_nil in Hin.
Qed.

Lemma X6_slider_range_witness :
  ∃ min_val_default max_val_default,
    series_min (column Confidence <$> [rule_a_b; rule_a_bc])
      = Some min_val_default
    ∧ series_max (column Confidence <$> [rule_a_b; rule_a_bc])
      = Some max_val_default
    ∧ (min_val_default <= max_val_default)%Q
    ∧ (∀ row, row ∈ [rule_a_b; rule_a_bc] →
         (min_val_default <= column Confidence row)%Q
         ∧ (column Confidence row <= max_val_default)%Q)
    ∧ (∀ min_val, (min_val <= max_val_default)%Q →
         rows_ge (column Confidence) min_val [rule_a_b; rule_a_bc] ≠ []).
Proof.
  apply (X6_slider_range [rule_a_b; rule_a_bc] Confidence). discriminate.
Defined.

(** X7: for a non-empty rule table the graph stage draws a graph exactly
    when the two ends of the slider differ, and raises at the slider
    otherwise; in a drawn graph, whatever the position of the slider, the
    weight of every edge lies between the chosen threshold and the upper
    end of the slider. *)
Theorem X7_edge_weights_in_range rules metric_choice moved_to :
  rules ≠ [] →
  ∃ min_val_default max_val_default,
    series_min (column metric_choice <$> rules) = Some min_val_default
    ∧ series_max (column metric_choice <$> rules) = Some max_val_default
    ∧ ((min_val_default < max_val_default)%Q →
       graph_stage rules metric_choice moved_to
       = Ok (draw_network rules metric_choice
               (default min_val_default moved_to)))
    ∧ (¬ (min_val_default < max_val_default)%Q →
       graph_stage rules metric_choice moved_to = Err StreamlitAPIException)
    ∧ ∀ G u v attr,
        graph_stage rules metric_choice moved_to = Ok G →
        ((u, v), attr) ∈ edges G →
        (default min_val_default moved_to <= weight attr)%Q
        ∧ (weight attr <= max_val_default)%Q.
Proof.
  intros Hne.
  destruct (series_min (column metric_choice <$> rules)) as [mn|] eqn:Hmin;
    [|by destruct rules].
  destruct (series_max (column metric_choice <$> rules)) as [mx|] eqn:Hmax;
    [|by destruct rules].
  pose proof (series_min_max_le _ _ _ Hmin Hmax) as Hle.
  destruct (series_max_spec _ _ Hmax) as [_ Hmx].
  pose proof (graph_stage_spec rules metric_choice moved_to mn mx
                Hmin Hmax Hle) as Hstage.
  exists mn, mx. split_and!; [done..| | |].
  - intros Hlt. rewrite Hstage.
    destruct (Qle_bool mx mn) eqn:Hb; [|done].
    apply Qle_bool_iff in Hb. by apply Qlt_not_le in Hlt.
  - intros Hnlt. rewrite Hstage.
    destruct (Qle_bool mx mn) eqn:Hb; [done|]. exfalso. apply Hnlt.
    apply Qnot_le_lt. rewrite <- Qle_bool_iff. congruence.
  - intros G u v attr HG Hin.
    apply graph_stage_Ok in HG as (mn' & _ & Hmn' & _ & _ & ->).
    rewrite Hmin in Hmn'. injection Hmn' as <-.
    apply edges_draw_network_attr in Hin
      as (row & [Hrow Hge]%elem_of_rows_ge & _ & ->).
    simpl. split; [done|]. apply Hmx, list_elem_of_fmap. eauto.
Qed.

Lemma X7_edge_weights_in_range_witness :
  ∃ min_val_default max_val_default,
    series_min (column Confidence <$> [rule_a_b; rule_a_bc])
      = Some min_val_default
    ∧ series_max (column Confidence <$> [rule_a_b; rule_a_bc])
      = Some max_val_default
    ∧ ((min_val_default < max_val_default)%Q →
       graph_stage [rule_a_b; rule_a_bc] Confidence (Some (1 # 2))
       = Ok (draw_network [rule_a_b; rule_a_bc] Confidence
               (default min_val_default (Some (1 # 2)))))
    ∧ (¬ (min_val_default < max_val_default)%Q →
       graph_stage [rule_a_b; rule_a_bc] Confidence (Some (1 # 2))
       = Err StreamlitAPIException)
    ∧ ∀ G u v attr,
        graph_stage [rule_a_b; rule_a_bc] Confidence (Some (1 # 2)) = Ok G →
        ((u, v), attr) ∈ edges G →
        (default min_val_default (Some (1 # 2)) <= weight attr)%Q
        ∧ (weight attr <= max_val_default)%Q.
Proof.
  apply (X7_edge_weights_in_range [rule_a_b; rule_a_bc] Confidence
           (Some (1 # 2))).
  discriminate.
Defined.

(** X19: when the graph stage draws a graph with the slider untouched, the
    threshold is the least value of the selected metric over the rule
    table, the filter of [draw_network] keeps every rule, and every pair of
    every rule's cross product is an edge of the graph. *)
Theorem X19_default_threshold_keeps_all rules metric_choice G :
  graph_stage rules metric_choice None = Ok G →
  ∃ min_val,
    series_min (column metric_choice <$> rules) = Some min_val ∧
    (∃ row, row ∈ rules ∧ min_val = column metric_choice row) ∧
    (∀ row, row ∈ rules → (min_val <= column metric_choice row)%Q) ∧
    G = draw_network rules metric_choice min_val ∧
    rows_ge (column metric_choice) min_val rules = rules ∧
    ∀ row u v, row ∈ rules → produces u v row →
      edge_count u v G = 1%nat ∧ (u, v) ∈ (edges G).*1.
Proof.
  intros (m & M & Hmin & _ & _ & ->)%graph_stage_Ok. simpl.
  destruct (series_min_spec _ _ Hmin) as [Hin Hle].
  assert (Hall : ∀ row, row ∈ rules → (m <= column metric_choice row)%Q).
  { intros row Hrow. apply Hle, list_elem_of_fmap. eauto. }
  assert (Hkeep : rows_ge (column metric_choice) m rules = rules).
  { apply filter_all. intros row Hrow. by apply Qle_bool_iff, Hall. }
  exists m. split_and!; try done.
  - apply list_elem_of_fmap in Hin as (row & ? & ?). eauto.
  - intros row u v Hrow Hp.
    destruct (elem_of_edges_draw_network rules metric_choice m u v) as [_ Hedge].
    assert (Hin' : (u, v) ∈ (edges (draw_network rules metric_choice m)).*1).
    { apply Hedge. exists row. by rewrite Hkeep. }
    split; [|done].
    rewrite edge_count_get by apply wf_draw_network.
    apply list_elem_of_fmap in Hin' as ([k attr] & Hk & Hin'). simpl in Hk.
    subst k. apply elem_of_edges_get in Hin'; [|apply wf_draw_network].
    by rewrite Hin'.
Qed.

Lemma X19_default_threshold_keeps_all_witness :
  ∃ min_val,
    series_min (column Confidence <$> [rule_a_b; rule_a_bc]) = Some min_val ∧
    (∃ row, row ∈ [rule_a_b; rule_a_bc] ∧ min_val = column Confidence row) ∧
    (∀ row, row ∈ [rule_a_b; rule_a_bc] →
       (min_val <= column Confidence row)%Q) ∧
    draw_network [rule_a_b; rule_a_bc] Confidence (1 # 3)
      = draw_network [rule_a_b; rule_a_bc] Confidence min_val ∧
    rows_ge (column Confidence) min_val [rule_a_b; rule_a_bc]
      = [rule_a_b; rule_a_bc] ∧
    ∀ row u v, row ∈ [rule_a_b; rule_a_bc] → produces u v row →
      edge_count u v (draw_network [rule_a_b; rule_a_bc] Confidence (1 # 3))
        = 1%nat
      ∧ (u, v) ∈ (edges (draw_network [rule_a_b; rule_a_bc] Confidence
                           (1 # 3))).*1.
Proof.
  apply (X19_default_threshold_keeps_all [rule_a_b; rule_a_bc] Confidence
           (draw_network [rule_a_b; rule_a_bc] Confidence (1 # 3))).
  vm_compute. reflexivity.
Defined.

(** X9: on the lift metric the two thresholds act as one: drawing the
    lift-filtered table at a graph threshold gives the graph of the
    unfiltered table at the larger of [min_lift] and that threshold. *)
Theorem X9_lift_thresholds_compose generated min_lift min_val :
  rows_ge lift min_val (rows_ge lift min_lift generated)
    = rows_ge lift (Qmax' min_lift min_val) generated
  ∧ draw_network (rows_ge lift min_lift generated) Lift min_val
    = draw_network generated Lift (Qmax' min_lift min_val).
Proof.
  assert (Hrows : rows_ge lift min_val (rows_ge lift min_lift generated)
            = rows_ge lift (Qmax' min_lift min_val) generated).
  { unfold rows_ge. rewrite list_filter_filter. apply list_filter_iff.
    intros row. rewrite !Qle_bool_iff. unfold Qmax'.
    destruct (Qle_bool min_lift min_val) eqn:Hle.
    - apply Qle_bool_iff in Hle. split; [by intros [? _]|].
      intros ?. split; [done|]. by eapply Qle_trans.
    - assert (min_val <= min_lift)%Q.
      { apply Qlt_le_weak, Qnot_le_lt. rewrite <- Qle_bool_iff. congruence. }
      split; [by intros [_ ?]|]. intros ?. split; [|done].
      by eapply Qle_trans. }
  split; [done|]. unfold draw_network. change (column Lift) with lift.
  by rewrite Hrows.
Qed.

(** X14: the graph never has more edges than the kept rules have
    antecedent-consequent pairs: the number of edges is at most the sum,
    over the rules that pass the threshold, of the product of the sizes of
    the two sides. *)
Theorem X14_edge_count_bound rules selected_metric min_val :
  (length (edges (draw_network rules selected_metric min_val))
   ≤ sum_list_with
       (λ row, size (antecedents row) * size (consequents row))
       (rows_ge (column selected_metric) min_val rules))%nat.
Proof.
  rewrite <- length_rule_pairs.
  rewrite <- (length_fmap fst (edges _)).
  apply submseteq_length, NoDup_submseteq.
  - apply NoDup_edges, wf_draw_network.
  - intros [u v] Hin. apply elem_of_rule_pairs.
    by apply elem_of_edges_draw_network.
Qed.

(** X18: which edges and nodes the graph has does not depend on the order
    of the rule table: two tables with the same rows in a different order
    give graphs with the same ordered pairs as edges and the same nodes
    (only the attributes of an edge with several rules may differ). *)
Theorem X18_edge_set_order_independent rules rules' selected_metric min_val :
  rules ≡ₚ rules' →
  let G := draw_network rules selected_metric min_val in
  let G' := draw_network rules' selected_metric min_val in
  (∀ u v, (u, v) ∈ (edges G).*1 ↔ (u, v) ∈ (edges G').*1)
  ∧ (∀ n, n ∈ nodes G ↔ n ∈ nodes G').
Proof.
  intros Hperm G G'.
  assert (Hkept : ∀ row, row ∈ rows_ge (column selected_metric) min_val rules
            ↔ row ∈ rows_ge (column selected_metric) min_val rules').
  { intros row. rewrite !elem_of_rows_ge. by rewrite Hperm. }
  split.
  - intros u v. unfold G, G'. rewrite !elem_of_edges_draw_network.
    by setoid_rewrite Hkept.
  - intros n. unfold G, G'. rewrite !elem_of_nodes_draw_network.
    by setoid_rewrite Hkept.
Qed.

Lemma X18_edge_set_order_independent_witness :
  let G := draw_network [rule_a_b; rule_a_bc] Confidence (1 # 3) in
  let G' := draw_network [rule_a_bc; rule_a_b] Confidence (1 # 3) in
  (∀ u v, (u, v) ∈ (edges G).*1 ↔ (u, v) ∈ (edges G').*1)
  ∧ (∀ n, n ∈ nodes G ↔ n ∈ nodes G').
Proof.
  apply (X18_edge_set_order_independent [rule_a_b; rule_a_bc]
           [rule_a_bc; rule_a_b] Confidence (1 # 3)).
  apply Permutation_swap.
Defined.

(** ** The one-hot encoding of the uploaded table *)

(** X10: the cell of [basket] in the row of an order and the column of a
    product holds the number of lines of the uploaded table with that order
    and that product, and the same cell of [basket_sets] is 1 when that
    number is positive and 0 otherwise. *)
Theorem X10_basket_cells df i j o p :
  index (basket df) !! i = Some o →
  columns (basket df) !! j = Some p →
  let n := length (filter (λ r, (order_id r, product r) = (Some o, Some p))
                     df) in
  (values (basket df) !! i ≫= (.!! j)) = Some n
  ∧ (values (basket_sets df) !! i ≫= (.!! j))
    = Some (if bool_decide (0 < n)%nat then 1 else 0).
Proof.
  intros Hi Hj n.
  assert (Hcell : (values (basket df) !! i ≫= (.!! j)) = Some n).
  { rewrite basket_values.
    by apply (lookup_cells (λ o p,
      length (filter (λ r, (order_id r, product r) = (Some o, Some p)) df))). }
  split; [done|].
  change (values (basket_sets df))
    with ((λ row : list nat,
             (λ n, if bool_decide (0 < n)%nat then 1 else 0) <$> row)
            <$> values (basket df)).
  rewrite list_lookup_fmap.
  destruct (values (basket df) !! i) as [row|]; [|done].
  simpl in Hcell. simpl. by rewrite list_lookup_fmap, Hcell.
Qed.

Lemma X10_basket_cells_witness :
  let n := length (filter (λ r, (order_id r, product r)
                                = (Some 2, Some "eggs")) example_df) in
  (values (basket example_df) !! 1%nat ≫= (.!! 1%nat)) = Some n
  ∧ (values (basket_sets example_df) !! 1%nat ≫= (.!! 1%nat))
    = Some (if bool_decide (0 < n)%nat then 1 else 0).
Proof.
  apply (X10_basket_cells example_df 1 1 2 "eggs").
  - vm_compute. reflexivity.
  - vm_compute. reflexivity.
Defined.

(** X11: the rows of [basket_sets] are labelled by the order ids of the
    lines of the uploaded table that have both fields, and the columns by
    the products of those lines, each label once; a line with a missing
    field gives no label.  The matrix has one row per row label and every
    row has one cell per column. *)
Theorem X11_basket_sets_shape df :
  let b := basket_sets df in
  NoDup (index b)
  ∧ (∀ o, o ∈ index b
       ↔ ∃ r, r ∈ df ∧ order_id r = Some o ∧ is_Some (product r))
  ∧ NoDup (columns b)
  ∧ (∀ p, p ∈ columns b
       ↔ ∃ r, r ∈ df ∧ product r = Some p ∧ is_Some (order_id r))
  ∧ length (values b) = length (index b)
  ∧ (∀ row, row ∈ values b → length row = length (columns b)).
Proof.
  intros b. unfold b. rewrite basket_sets_presence.
  destruct (index_presence (list_to_set (pairs df))) as (_ & Hn1 & Hm1).
  destruct (columns_presence (list_to_set (pairs df))) as (_ & Hn2 & Hm2).
  split_and!; [done| |done| | |].
  - intros o. rewrite Hm1. setoid_rewrite elem_of_pairs. split.
    + intros (p & r & ? & ? & ?). exists r. eauto.
    + intros (r & ? & ? & [p ?]). eauto.
  - intros p. rewrite Hm2. setoid_rewrite elem_of_pairs. split.
    + intros (o & r & ? & ? & ?). exists r. eauto.
    + intros (r & ? & ? & [o ?]). eauto.
  - unfold presence_matrix. simpl. by rewrite length_fmap.
  - unfold presence_matrix. simpl.
    intros row (o & -> & _)%list_elem_of_fmap. by rewrite length_fmap.
Qed.

(** X12: the matrix has no empty transaction and no unused product: every
    row of [basket_sets] contains a 1, and every column has a 1 in some
    row. *)
Theorem X12_no_empty_row_or_column df :
  let b := basket_sets df in
  (∀ row, row ∈ values b → 1 ∈ row)
  ∧ (∀ j p, columns b !! j = Some p →
       ∃ row, row ∈ values b ∧ row !! j = Some 1).
Proof.
  intros b. unfold b. rewrite basket_sets_presence.
  destruct (index_presence (list_to_set (pairs df))) as (_ & _ & Hm1).
  destruct (columns_presence (list_to_set (pairs df))) as (_ & _ & Hm2).
  revert Hm1 Hm2. unfold presence_matrix. simpl.
  generalize (list_to_set (pairs df) : gset (Z * Item)). intros present.
  generalize (merge_sort Z.le (elements (set_map fst present : gset Z))).
  generalize (merge_sort String.le
                (elements (set_map snd present : gset Item))).
  intros cols idx Hm1 Hm2. split.
  - intros row (o & -> & Ho)%list_elem_of_fmap.
    apply Hm1 in Ho as [p Hin].
    apply list_elem_of_fmap. exists p. split.
    + by rewrite bool_decide_eq_true_2.
    + apply Hm2. eauto.
  - intros j p Hj.
    assert (Hp : p ∈ cols) by (by eapply list_elem_of_lookup_2).
    apply Hm2 in Hp as [o Hin].
    exists ((λ p, if bool_decide ((o, p) ∈ present) then 1 else 0) <$> cols).
    split.
    + apply list_elem_of_fmap. exists o. split; [done|]. apply Hm1. eauto.
    + unfold Item in *. rewrite list_lookup_fmap, Hj. simpl.
      by rewrite bool_decide_eq_true_2.
Qed.

(** X13: grouping counts every line that has both fields once and drops
    the others: the cells of [basket] add up to the number of lines of the
    uploaded table with an order id and a product, which is the number of
    all lines only if no field is missing. *)
Theorem X13_basket_total df :
  sum_list (concat (values (basket df)))
  = length (filter (λ r, is_Some (order_id r) ∧ is_Some (product r)) df)
  ∧ (sum_list (concat (values (basket df))) ≤ length df)%nat.
Proof.
  assert (Hsum : sum_list (concat (values (basket df)))
               = length (filter (λ r, is_Some (order_id r)
                                      ∧ is_Some (product r)) df)).
  { rewrite basket_values, sum_cells, <- length_pairs.
    destruct (basket_labels df) as (Hn1 & Hm1 & Hn2 & Hm2).
    rewrite <- (sum_counts (index (basket df)) (columns (basket df))
                  (pairs df) Hn1 Hn2).
    - apply sum_list_with_ext_in. intros o _.
      apply sum_list_with_ext_in. intros p _. apply count_pairs.
    - intros [o p] Hk. split; [apply Hm1|apply Hm2]; eauto. }
  split; [done|]. rewrite Hsum. apply length_filter.
Qed.

(** Two lines of the table are complete; the third has no product and the
    fourth no order id.  Order 2 gets no row, eggs no column, and the
    cells add up to two. *)
Example basket_missing_fields :
  let df := [ {| order_id := Some 1; product := Some "milk" |};
              {| order_id := Some 1; product := Some "bread" |};
              {| order_id := Some 2; product := None |};
              {| order_id := None; product := Some "eggs" |} ] in
  index (basket_sets df) = [1]
  ∧ columns (basket_sets df) = ["bread"; "milk"]%string
  ∧ values (basket_sets df) = [[1; 1]]
  ∧ sum_list (concat (values (basket df))) = 2%nat.
Proof. vm_compute. done. Qed.
(** ** The text of the export *)


(** The displayed row with awkward texts, in a frame with two further
    columns: the written text and what is read back from it.  A carriage
    return alone does not make the writer quote a field. *)
Example export_awkward_row :
  convert_df_to_csv ["leverage"; "a,b"] [awkward_display_row]
  = String.concat (String newline EmptyString)
      ["antecedents,consequents,antecedent support,consequent support,support,confidence,lift,leverage,"
         +:+ String quotechar ("a,b" +:+ String quotechar EmptyString);
       String quotechar
         (String "a" (String comma (String quotechar (String quotechar
            (String newline ("b" +:+ String quotechar
               (String comma (String quotechar (String quotechar
                  (String quotechar (String quotechar (String quotechar
                     (", c" +:+ String quotechar
                        ",3/4,3/4,1/2,2/3,8/9,1/9,3/1")))))))))))));
       EmptyString]
  ∧ read_csv (convert_df_to_csv ["leverage"; "a,b"] [awkward_display_row])
    = Some [csv_header ["leverage"; "a,b"]; csv_row awkward_display_row]
  ∧ csv_field (String "a" (String "013" "b")) = String "a" (String "013" "b").
Proof. split_and!; vm_compute; reflexivity. Qed.

(** ** A run with the mining library of the specification *)

(** X17: in a run that shows a dashboard, with the mining library as the
    specification describes it, both sides of every rule are non-empty and
    disjoint sets of products of the uploaded table; hence every node of
    the drawn graph is a product of the uploaded table and no edge joins a
    node to itself. *)
Theorem X17_run_items_and_loops df min_support min_confidence min_lift
    metric_choice moved_to rules shown G :
  main mlxtend df min_support min_confidence min_lift metric_choice moved_to
    = Ok (Dashboard rules shown G) →
  (∀ r, r ∈ rules →
     antecedents r ≠ ∅ ∧ consequents r ≠ ∅
     ∧ antecedents r ## consequents r
     ∧ ∀ i, i ∈ antecedents r ∪ consequents r →
         ∃ line, line ∈ df ∧ product line = Some i)
  ∧ (∀ n, n ∈ nodes G → ∃ line, line ∈ df ∧ product line = Some n)
  ∧ (∀ n, get_edge n n G = None).
Proof.
  unfold main.
  destruct (mine_rules mlxtend df min_support min_confidence min_lift)
    as [rules'|e] eqn:Hmine; simpl; [|done].
  destruct (bool_decide (rules' = [])); [done|].
  destruct (graph_stage rules' metric_choice moved_to) as [G'|e] eqn:HG;
    simpl; [|done].
  intros [= -> _ ->].
  assert (Hrules : ∀ r, r ∈ rules →
     antecedents r ≠ ∅ ∧ consequents r ≠ ∅
     ∧ antecedents r ## consequents r
     ∧ ∀ i, i ∈ antecedents r ∪ consequents r →
         ∃ line, line ∈ df ∧ product line = Some i).
  { unfold mine_rules in Hmine. simpl in Hmine.
    destruct (Mlxtend.apriori (basket_sets df) min_support) as [fi|e] eqn:Hap;
      simpl in Hmine; [|done].
    destruct (Mlxtend.association_rules fi min_confidence)
      as [generated|e] eqn:Hgen; simpl in Hmine; [|done].
    injection Hmine as <-.
    intros r [Hr _]%elem_of_rows_ge.
    destruct (generated_rule_metrics _ _ _ _ _ _ Hap Hgen Hr)
      as (_ & _ & X & HX & Hac).
    destruct (bipartitions_partition _ _ _ Hac) as (Ha & Hc & Hdisj & Hun).
    apply elem_of_mine in HX as (_ & Hcols & _).
    split_and!; [done|done|set_solver|].
    intros i Hi. rewrite Hun in Hi. apply Hcols in Hi.
    apply elem_of_list_to_set in Hi.
    destruct (basket_sets_labels df) as [_ Hlab]. rewrite Hlab in Hi.
    apply basket_labels in Hi as [o Hi].
    apply elem_of_pairs_list in Hi as (line & ? & _ & ?). eauto. }
  apply graph_stage_Ok in HG as (mn & mx & _ & _ & _ & ->).
  split_and!; [done| |].
  - intros n (row & m & [Hrow _]%elem_of_rows_ge & Hp)%elem_of_nodes_draw_network.
    destruct (Hrules row Hrow) as (_ & _ & _ & Hitems).
    apply Hitems. destruct Hp as [[? _]|[_ ?]]; set_solver.
  - intros n. destruct (get_edge n n _) as [attr|] eqn:Hg; [|done]. exfalso.
    rewrite get_edge_draw_network in Hg.
    destruct (last_producer n n _) as [row|] eqn:Hl; [|done].
    apply last_producer_Some in Hl as [[Hrow _]%elem_of_rows_ge [Ha Hc]].
    destruct (Hrules row Hrow) as (_ & _ & Hdisj & _).
    by apply (Hdisj n).
Qed.

Lemma X17_run_items_and_loops_witness :
  (∀ r, r ∈ example_run_rules →
     antecedents r ≠ ∅ ∧ consequents r ≠ ∅
     ∧ antecedents r ## consequents r
     ∧ ∀ i, i ∈ antecedents r ∪ consequents r →
         ∃ line, line ∈ example_df ∧ product line = Some i)
  ∧ (∀ n, n ∈ nodes (draw_network example_run_rules Confidence (1 # 2)) →
       ∃ line, line ∈ example_df ∧ product line = Some n)
  ∧ (∀ n, get_edge n n (draw_network example_run_rules Confidence (1 # 2))
          = None).
Proof.
  apply (X17_run_items_and_loops example_df (1 # 4) (1 # 2) 1%Q Confidence None
           example_run_rules (display_rules example_run_rules)
           (draw_network example_run_rules Confidence (1 # 2))).
  vm_compute. reflexivity.
Defined.
